(** * Bulletin Board Designer: the resampler and the tiler

    A shallow embedding of [js/imageProcessor.js] (class [ImageProcessor]),
    of the grid splitter (class [GridSplitter]) and of the helpers of
    [js/utils.js] they call, with the properties of the specification
    proved or refuted over it.

    Numbers.  Canvas dimensions, pixel indices and loop counters are
    integers ([Z]).  The quotients the code forms from them (scale factors,
    tile rectangles, progress percentages) are exact rationals ([Q]), and
    the Lanczos convolution, which calls [Math.sin], is carried out in the
    real numbers ([R]).  IEEE-754 rounding of the intermediate results is
    not modelled: every statement below is about exact arithmetic.  A
    quotient by zero ([Infinity] or [NaN] in JavaScript) is [0] in [Q];
    the statements that depend on such a quotient exclude it by hypothesis.

    The browser.  A canvas is its backing store, a flat list of RGBA bytes.
    The smoothing filter behind [drawImage] is not part of the repository;
    it is a parameter ([filter]) of the definitions that call it.  The
    exceptions the canvas API raises on empty bitmaps are modelled as the
    HTML standard gives them: [getImageData] and [createImageData] raise
    [IndexSizeError] on a zero width or height, [drawImage] raises
    [InvalidStateError] when the canvas it reads has one.

    Effects.  The progress callback is modelled by the log of the values it
    was called with; exceptions by a sum type.  [await Utils.sleep(0)] only
    yields to the event loop and is dropped; the fields [processedCanvas]
    and [config], which are written and not read by the functions below,
    are not tracked.

    Loops.  A [for] loop with fixed bounds is a fold over its range.  A
    loop whose end depends on the values it computes is a fixpoint on a
    bound of the model's, with the outcome [Diverges] if the bound were
    exhausted; the lemmas on the runs show that it is not. *)

From Stdlib Require Import String Ascii DecimalString DecimalZ.
From Stdlib Require Import ZArith QArith Qround Qminmax List Bool Lia Lra Lqa.
From Stdlib Require Import Reals Psatz Sorted.
Import ListNotations.

(** ** JavaScript numbers *)

Module JS.

Local Open Scope Z_scope.

(** [for (let i = lo; i < hi; i++)] visits [zrange lo hi]. *)
Definition zrange (lo hi : Z) : list Z :=
  map (fun i => lo + Z.of_nat i) (seq 0 (Z.to_nat (hi - lo))).

(** [Math.round] rounds halves up: [Math.round(x) = floor(x + 1/2)]. *)
Definition Math_round (x : Q) : Z := Qfloor (x + (1 # 2)).

Definition Math_ceil (x : Q) : Z := Qceiling x.

(** [Math.ceil(Math.log2(x))] in exact arithmetic, for [x >= 1]: the least
    [k] with [x <= 2^k]. *)
Definition Math_ceil_log2 (x : Q) : Z := Z.log2_up (Qceiling x).

Definition Qltb (x y : Q) : bool := negb (Qle_bool y x).

(** The same functions on real numbers. *)
Definition Math_floorR (x : R) : Z := Int_part x.
Definition Math_ceilR (x : R) : Z := - Int_part (- x).

(** The value of a division: a finite quotient, or what IEEE-754 gives for
    a zero divisor (the sign of a zero divisor is not modelled). *)
Inductive jsnum : Type :=
| Fin (x : R)
| PInf
| NInf
| NaN.

(** An integral number, as [Math.round] returns it. *)
Inductive jsint : Type :=
| FinZ (z : Z)
| IPInf
| INInf
| INaN.

Definition jsdiv (x y : R) : jsnum :=
  if Req_dec_T y 0 then
    if Rlt_dec 0 x then PInf else if Rlt_dec x 0 then NInf else NaN
  else Fin (x / y).

Definition Math_roundR (v : jsnum) : jsint :=
  match v with
  | Fin x => FinZ (Int_part (x + / 2))
  | PInf => IPInf
  | NInf => INInf
  | NaN => INaN
  end.

(** [Math.max(v, lo)] and [Math.min(v, hi)] for finite integral bounds. *)
Definition Math_max (v : jsint) (lo : Z) : jsint :=
  match v with
  | FinZ z => FinZ (Z.max z lo)
  | IPInf => IPInf
  | INInf => FinZ lo
  | INaN => INaN
  end.

Definition Math_min (v : jsint) (hi : Z) : jsint :=
  match v with
  | FinZ z => FinZ (Z.min z hi)
  | IPInf => FinZ hi
  | INInf => INInf
  | INaN => INaN
  end.

(** Conversion on a store into a [Uint8ClampedArray]. *)
Definition toUint8Clamped (v : jsint) : Z :=
  match v with
  | FinZ z => Z.min 255 (Z.max 0 z)
  | IPInf => 255
  | INInf => 0
  | INaN => 0
  end.

(** [arr[i] = v] on a typed array: a store out of range is ignored. *)
Fixpoint set_nth (n : nat) (v : Z) (l : list Z) : list Z :=
  match l, n with
  | [], _ => []
  | _ :: t, O => v :: t
  | h :: t, S n' => h :: set_nth n' v t
  end.

Definition store (i : Z) (v : jsint) (l : list Z) : list Z :=
  if i <? 0 then l else set_nth (Z.to_nat i) (toUint8Clamped v) l.

(** [arr[i]] read as a number; every read of the model is in range. *)
Definition load (l : list Z) (i : Z) : R := IZR (nth (Z.to_nat i) l 0).

(** The sum of [g] over the indices of [l], for the accumulations of a
    loop. *)
Fixpoint Rsum (g : Z -> R) (l : list Z) : R :=
  match l with
  | [] => 0%R
  | i :: l' => (g i + Rsum g l')%R
  end.

End JS.

(** ** utils.js *)

Module Utils.

Import JS.

(** [clamp(value, min, max) = Math.min(Math.max(value, min), max)]. *)
Definition clamp (value : jsint) (min max : Z) : jsint :=
  Math_min (Math_max value min) max.

(** *** Paper sizes and units *)

(** The constants [A4.WIDTH_PORTRAIT_MM] and the three beside it. *)
Definition WIDTH_PORTRAIT_MM : Q := 210.
Definition HEIGHT_PORTRAIT_MM : Q := 297.
Definition WIDTH_LANDSCAPE_MM : Q := 297.
Definition HEIGHT_LANDSCAPE_MM : Q := 210.

(** [mmToPixels(mm, dpi) = Math.round((mm / 25.4) * dpi)]. *)
Definition mmToPixels (mm dpi : Q) : Z := Math_round (mm / (254 # 10) * dpi).

(** [pixelsToMm(pixels, dpi) = (pixels * 25.4) / dpi]. *)
Definition pixelsToMm (pixels dpi : Q) : Q := pixels * (254 # 10) / dpi.

Definition cmToMm (cm : Q) : Q := cm * 10.

(** *** calculateGridDimensions *)

(** The object [calculateGridDimensions] returns. *)
Record gridDimensions : Type := mkGridDimensions {
  cols : Z;
  rows : Z;
  totalPages : Z;
  a4WidthPx : Z;
  a4HeightPx : Z;
  overlapPx : Z;
  targetWidthPx : Z;
  targetHeightPx : Z;
  effectiveWidthPx : Z;
  effectiveHeightPx : Z
}.

Definition calculateGridDimensions (targetWidthMm targetHeightMm dpi : Q)
    (orientation : string) (overlapMm : Q) : gridDimensions :=
  let a4Width := if String.eqb orientation "portrait"
                 then WIDTH_PORTRAIT_MM else WIDTH_LANDSCAPE_MM in
  let a4Height := if String.eqb orientation "portrait"
                  then HEIGHT_PORTRAIT_MM else HEIGHT_LANDSCAPE_MM in
  (* Effective printable area (accounting for overlap) *)
  let effectiveWidth := a4Width - overlapMm in
  let effectiveHeight := a4Height - overlapMm in
  let cols := Math_ceil (targetWidthMm / effectiveWidth) in
  let rows := Math_ceil (targetHeightMm / effectiveHeight) in
  let a4WidthPx := mmToPixels a4Width dpi in
  let a4HeightPx := mmToPixels a4Height dpi in
  let overlapPx := mmToPixels overlapMm dpi in
  let targetWidthPx := mmToPixels targetWidthMm dpi in
  let targetHeightPx := mmToPixels targetHeightMm dpi in
  mkGridDimensions cols rows (cols * rows)%Z a4WidthPx a4HeightPx overlapPx
                   targetWidthPx targetHeightPx
                   (a4WidthPx - overlapPx)%Z (a4HeightPx - overlapPx)%Z.

(** [calculateUpscaleFactor]: [Math.max(scaleX, scaleY)]. *)
Definition calculateUpscaleFactor
    (originalWidth originalHeight targetWidthPx targetHeightPx : Z) : Q :=
  let scaleX := inject_Z targetWidthPx / inject_Z originalWidth in
  let scaleY := inject_Z targetHeightPx / inject_Z originalHeight in
  Qmax scaleX scaleY.

End Utils.

(** ** Effects: exceptions and the progress log *)

Module Eff.

Inductive error : Type :=
| NoImageLoaded      (* [throw new Error('No image loaded')] *)
| IndexSizeError     (* [createImageData], [getImageData] on a zero size *)
| InvalidStateError  (* [drawImage] from a canvas with a zero dimension *)
| Diverges.          (* a loop exhausted the bound the model gives it *)

(** A computation reads the calls made so far to the progress callback and
    returns an exception or a value, with the calls extended. *)
Definition M (A : Type) : Type := list Q -> (error + A) * list Q.

Definition ret {A} (a : A) : M A := fun log => (inr a, log).

Definition throw {A} (e : error) : M A := fun log => (inl e, log).

Definition bind {A B} (m : M A) (k : A -> M B) : M B :=
  fun log =>
    match m log with
    | (inl e, log') => (inl e, log')
    | (inr a, log') => k a log'
    end.

(** The optional callback argument. *)
Inductive callback : Type := NoCallback | Observer.

(** [if (progressCallback) progressCallback(v)]. *)
Definition notify (cb : callback) (v : Q) : M unit :=
  fun log =>
    match cb with
    | Observer => (inr tt, log ++ [v])
    | NoCallback => (inr tt, log)
    end.

(** [rising lo hi l]: the values of [l] do not decrease and lie between
    [lo] and [hi]. *)
Fixpoint rising (lo hi : Q) (l : list Q) : Prop :=
  match l with
  | [] => (lo <= hi)%Q
  | v :: l' => (lo <= v)%Q /\ rising v hi l'
  end.

Module Notations.

Notation "x <- m ;; k" := (bind m (fun x => k))
  (at level 61, m at next level, right associativity).
Notation "m ;;; k" := (bind m (fun _ => k))
  (at level 61, right associativity).

End Notations.

End Eff.

(** ** The canvas *)

Module Canvas.

Import JS Eff.
Local Open Scope Z_scope.

(** A bitmap: its size and its backing store, [4 * width * height] bytes,
    row-major, RGBA. *)
Record canvas : Type := mkCanvas {
  width : Z;
  height : Z;
  data : list Z
}.

Definition byte (v : Z) : Prop := 0 <= v <= 255.

(** What every backing store satisfies. *)
Definition wf (c : canvas) : Prop :=
  0 <= width c /\ 0 <= height c /\
  Z.of_nat (length (data c)) = 4 * width c * height c /\
  Forall byte (data c).

Definition empty (c : canvas) : bool := (width c =? 0) || (height c =? 0).

(** A size with no zero dimension. *)
Definition positive (wh : Z * Z) : Prop := 1 <= fst wh /\ 1 <= snd wh.

(** [ctx.getImageData(0, 0, c.width, c.height).data]. *)
Definition getImageData (c : canvas) : M (list Z) :=
  if empty c then throw IndexSizeError else ret (data c).

(** [ctx.createImageData(w, h).data]: transparent black. *)
Definition createImageData (w h : Z) : M (list Z) :=
  if (w =? 0) || (h =? 0) then throw IndexSizeError
  else ret (repeat 0 (Z.to_nat (4 * w * h))).

Section Filter.

(** [filter src w h i]: the value the browser's high-quality smoothing
    computes for byte [i] of a [w] by [h] rendering of [src]. *)
Variable filter : canvas -> Z -> Z -> Z -> Z.

(** A new canvas of size [w] by [h] with [imageSmoothingQuality = 'high'],
    then [destCtx.drawImage(src, 0, 0, w, h)]. *)
Definition drawImage (src : canvas) (w h : Z) : M canvas :=
  if empty src then throw InvalidStateError
  else ret (mkCanvas w h
              (map (fun i => toUint8Clamped (FinZ (filter src w h (Z.of_nat i))))
                   (seq 0 (Z.to_nat (4 * w * h))))).

End Filter.

End Canvas.

(** ** imageProcessor.js *)

Module ImageProcessor.

Import JS Eff Eff.Notations Canvas.
Local Open Scope Z_scope.

(** A decoded [HTMLImageElement]. *)
Record image : Type := mkImage {
  naturalWidth : Z;
  naturalHeight : Z;
  pixels : list Z
}.

(** *** lanczosResample *)

(** The kernel [lanczos(x, a = 3)]. *)
Definition lanczos (x a : R) : R :=
  if Req_dec_T x 0 then 1%R
  else if Rlt_dec x (- a) then 0%R
  else if Rlt_dec a x then 0%R
  else
    let pix := (PI * x)%R in
    ((a * sin pix * sin (pix / a)) / (pix * pix))%R.

Definition filterSize : Z := 3.

(** The accumulators [r, g, b, a, weightSum] of one destination pixel. *)
Record accum : Type := mkAccum {
  acc_r : R;
  acc_g : R;
  acc_b : R;
  acc_a : R;
  weightSum : R
}.

(** The body of the loop on [sx]. *)
Definition tap (srcData : list Z) (srcWidth : Z) (srcX srcY : R) (sy : Z)
    (ac : accum) (sx : Z) : accum :=
  let weight := (lanczos (srcX - IZR sx) 3 * lanczos (srcY - IZR sy) 3)%R in
  let idx := (sy * srcWidth + sx) * 4 in
  mkAccum (acc_r ac + load srcData idx * weight)
          (acc_g ac + load srcData (idx + 1) * weight)
          (acc_b ac + load srcData (idx + 2) * weight)
          (acc_a ac + load srcData (idx + 3) * weight)
          (weightSum ac + weight).

(** The loops on [sy] and [sx] for the destination pixel [(x, y)]. *)
Definition convolve (srcData : list Z) (srcWidth srcHeight : Z)
    (scaleX scaleY : R) (x y : Z) : accum :=
  let srcX := (IZR x * scaleX)%R in
  let srcY := (IZR y * scaleY)%R in
  let minX := Z.max 0 (Math_floorR srcX - filterSize) in
  let maxX := Z.min (srcWidth - 1) (Math_ceilR srcX + filterSize) in
  let minY := Z.max 0 (Math_floorR srcY - filterSize) in
  let maxY := Z.min (srcHeight - 1) (Math_ceilR srcY + filterSize) in
  fold_left
    (fun ac sy => fold_left (tap srcData srcWidth srcX srcY sy)
                            (zrange minX (maxX + 1)) ac)
    (zrange minY (maxY + 1))
    (mkAccum 0 0 0 0 0).

(** One channel: [Utils.clamp(Math.round(c / weightSum), 0, 255)]. *)
Definition channel (c ws : R) : jsint :=
  Utils.clamp (Math_roundR (jsdiv c ws)) 0 255.

(** The four stores of the destination pixel [(x, y)]. *)
Definition putPixel (srcData : list Z) (srcWidth srcHeight : Z)
    (scaleX scaleY : R) (targetWidth : Z) (y : Z)
    (destData : list Z) (x : Z) : list Z :=
  let ac := convolve srcData srcWidth srcHeight scaleX scaleY x y in
  let destIdx := (y * targetWidth + x) * 4 in
  let d0 := store destIdx (channel (acc_r ac) (weightSum ac)) destData in
  let d1 := store (destIdx + 1) (channel (acc_g ac) (weightSum ac)) d0 in
  let d2 := store (destIdx + 2) (channel (acc_b ac) (weightSum ac)) d1 in
  store (destIdx + 3) (channel (acc_a ac) (weightSum ac)) d2.

(** The loops on [y] from [startY] to [endY] and on [x]. *)
Definition scanRows (srcData : list Z) (srcWidth srcHeight : Z)
    (scaleX scaleY : R) (targetWidth : Z) (startY endY : Z)
    (destData : list Z) : list Z :=
  fold_left
    (fun d y => fold_left
                  (putPixel srcData srcWidth srcHeight scaleX scaleY
                            targetWidth y)
                  (zrange 0 targetWidth) d)
    (zrange startY endY) destData.

(** The loop on [startY], one chunk of rows per turn. *)
Fixpoint chunkLoop (fuel : nat) (srcData : list Z) (srcWidth srcHeight : Z)
    (scaleX scaleY : R) (targetWidth targetHeight chunkSize : Z)
    (cb : callback) (startY : Z) (destData : list Z) : M (list Z) :=
  if startY <? targetHeight then
    match fuel with
    | O => throw Diverges
    | S fuel' =>
        let endY := Z.min (startY + chunkSize) targetHeight in
        let destData' :=
          scanRows srcData srcWidth srcHeight scaleX scaleY targetWidth
                   startY endY destData in
        notify cb (10 + 80 * inject_Z endY / inject_Z targetHeight)%Q ;;;
        chunkLoop fuel' srcData srcWidth srcHeight scaleX scaleY
                  targetWidth targetHeight chunkSize cb
                  (startY + chunkSize) destData'
    end
  else ret destData.

Definition lanczosResample (srcCanvas : canvas) (targetWidth targetHeight : Z)
    (cb : callback) : M canvas :=
  srcData <- getImageData srcCanvas ;;
  destData <- createImageData targetWidth targetHeight ;;
  let srcWidth := width srcCanvas in
  let srcHeight := height srcCanvas in
  let scaleX := (IZR srcWidth / IZR targetWidth)%R in
  let scaleY := (IZR srcHeight / IZR targetHeight)%R in
  let chunkSize := Math_ceil (inject_Z targetHeight / 10)%Q in
  destData' <- chunkLoop (Z.to_nat targetHeight) srcData srcWidth srcHeight
                         scaleX scaleY targetWidth targetHeight chunkSize cb
                         0 destData ;;
  ret (mkCanvas targetWidth targetHeight destData').

(** The pixels [lanczosResample] leaves in [destData]: all the rows, scanned
    from transparent black. *)
Definition resampled (srcCanvas : canvas) (targetWidth targetHeight : Z)
    : list Z :=
  scanRows (data srcCanvas) (width srcCanvas) (height srcCanvas)
           (IZR (width srcCanvas) / IZR targetWidth)%R
           (IZR (height srcCanvas) / IZR targetHeight)%R
           targetWidth 0 targetHeight
           (repeat 0 (Z.to_nat (4 * targetWidth * targetHeight))).

(** The byte the loops compute for index [j] of [destData]: channel
    [j mod 4] of the pixel [(j / 4 mod targetWidth, j / 4 / targetWidth)]. *)
Definition destByte (srcData : list Z) (srcWidth srcHeight : Z)
    (scaleX scaleY : R) (targetWidth : Z) (j : Z) : Z :=
  let p := j / 4 in
  let ac := convolve srcData srcWidth srcHeight scaleX scaleY
                     (p mod targetWidth) (p / targetWidth) in
  let c := j mod 4 in
  toUint8Clamped
    (channel (if c =? 0 then acc_r ac
              else if c =? 1 then acc_g ac
              else if c =? 2 then acc_b ac
              else acc_a ac)
             (weightSum ac)).

(** *** upscaleLanczos *)

(** The [while (currentScale < targetScale)] loop of the staged branch. *)
Fixpoint stagedLoop (fuel : nat) (srcCanvas : canvas) (targetScale : Q)
    (totalSteps : Z) (cb : callback)
    (currentCanvas : canvas) (currentScale : Q) (stepNum : Z) : M canvas :=
  if Qltb currentScale targetScale then
    match fuel with
    | O => throw Diverges
    | S fuel' =>
        let nextScale := Qmin (currentScale * 2) targetScale in
        let nextWidth := Math_round (inject_Z (width srcCanvas) * nextScale) in
        let nextHeight := Math_round (inject_Z (height srcCanvas) * nextScale) in
        c <- lanczosResample currentCanvas nextWidth nextHeight NoCallback ;;
        let stepNum' := stepNum + 1 in
        notify cb (10 + 80 * inject_Z stepNum' / inject_Z totalSteps)%Q ;;;
        stagedLoop fuel' srcCanvas targetScale totalSteps cb
                   c nextScale stepNum'
    end
  else ret currentCanvas.

Definition upscaleLanczos (srcCanvas : canvas) (targetWidth targetHeight : Z)
    (cb : callback) : M canvas :=
  let scale := (inject_Z targetWidth / inject_Z (width srcCanvas))%Q in
  if Qle_bool scale 2 then
    lanczosResample srcCanvas targetWidth targetHeight cb
  else
    let targetScale := scale in
    let totalSteps := Math_ceil_log2 scale in
    stagedLoop (Z.to_nat (Math_ceil scale)) srcCanvas targetScale totalSteps
               cb srcCanvas 1%Q 0.

(** *** The dimensions [upscale] asks its strategies for *)

(** "Calculate aspect-ratio preserving dimensions":
    [scale = Math.min(targetWidth / srcWidth, targetHeight / srcHeight)]. *)
Definition fitScale (srcWidth srcHeight targetWidth targetHeight : Z) : Q :=
  Qmin (inject_Z targetWidth / inject_Z srcWidth)
       (inject_Z targetHeight / inject_Z srcHeight).

(** [newWidth = Math.round(srcWidth * scale)]. *)
Definition fitWidth (srcWidth srcHeight targetWidth targetHeight : Z) : Z :=
  Math_round (inject_Z srcWidth
              * fitScale srcWidth srcHeight targetWidth targetHeight).

(** [newHeight = Math.round(srcHeight * scale)]. *)
Definition fitHeight (srcWidth srcHeight targetWidth targetHeight : Z) : Z :=
  Math_round (inject_Z srcHeight
              * fitScale srcWidth srcHeight targetWidth targetHeight).


Section Filter.

Variable filter : canvas -> Z -> Z -> Z -> Z.

(** *** upscaleBilinear *)

Definition upscaleBilinear (srcCanvas : canvas) (targetWidth targetHeight : Z)
    (cb : callback) : M canvas :=
  destCanvas <- drawImage filter srcCanvas targetWidth targetHeight ;;
  notify cb 90%Q ;;;
  ret destCanvas.

(** *** upscaleBicubic *)

(** The planning loop [while (w < targetWidth || h < targetHeight)]. *)
Fixpoint planSteps (fuel : nat) (w h targetWidth targetHeight : Z)
    (steps : list (Z * Z)) : M (list (Z * Z)) :=
  if (w <? targetWidth) || (h <? targetHeight) then
    match fuel with
    | O => throw Diverges
    | S fuel' =>
        let w' := Z.min (w * 2) targetWidth in
        let h' := Z.min (h * 2) targetHeight in
        planSteps fuel' w' h' targetWidth targetHeight (steps ++ [(w', h')])
    end
  else ret steps.

(** "Make sure final step reaches target". *)
Definition finalStep (steps : list (Z * Z)) (targetWidth targetHeight : Z)
    : list (Z * Z) :=
  match rev steps with
  | [] => steps ++ [(targetWidth, targetHeight)]
  | (w, h) :: _ =>
      if negb (w =? targetWidth) || negb (h =? targetHeight)
      then steps ++ [(targetWidth, targetHeight)]
      else steps
  end.

(** The loop [for (let i = 0; i < steps.length; i++)], from step [i] on. *)
Fixpoint runSteps (rest : list (Z * Z)) (i len : Z) (cb : callback)
    (currentCanvas : canvas) : M canvas :=
  match rest with
  | [] => ret currentCanvas
  | (w, h) :: rest' =>
      destCanvas <- drawImage filter currentCanvas w h ;;
      notify cb (10 + 80 * inject_Z (i + 1) / inject_Z len)%Q ;;;
      runSteps rest' (i + 1) len cb destCanvas
  end.

Definition upscaleBicubic (srcCanvas : canvas) (targetWidth targetHeight : Z)
    (cb : callback) : M canvas :=
  steps <- planSteps (Z.to_nat (targetWidth + targetHeight))
                     (width srcCanvas) (height srcCanvas)
                     targetWidth targetHeight [] ;;
  let steps' := finalStep steps targetWidth targetHeight in
  runSteps steps' 0 (Z.of_nat (length steps')) cb srcCanvas.

(** *** upscale *)

Definition upscale (originalImage : option image)
    (targetWidth targetHeight : Z) (algorithm : string)
    (cb : callback) : M canvas :=
  match originalImage with
  | None => throw NoImageLoaded
  | Some img =>
      let srcWidth := naturalWidth img in
      let srcHeight := naturalHeight img in
      let newWidth := fitWidth srcWidth srcHeight targetWidth targetHeight in
      let newHeight :=
        fitHeight srcWidth srcHeight targetWidth targetHeight in
      notify cb 0%Q ;;;
      (* [srcCtx.drawImage(this.originalImage, 0, 0)]: an unscaled copy *)
      let srcCanvas := mkCanvas srcWidth srcHeight (pixels img) in
      notify cb 10%Q ;;;
      result <-
        (if String.eqb algorithm "bilinear"%string then
           upscaleBilinear srcCanvas newWidth newHeight cb
         else if String.eqb algorithm "bicubic"%string then
           upscaleBicubic srcCanvas newWidth newHeight cb
         else
           upscaleLanczos srcCanvas newWidth newHeight cb) ;;
      notify cb 100%Q ;;;
      ret result
  end.

End Filter.

End ImageProcessor.

(** ** The grid splitter *)

Module GridSplitter.

Import JS Eff Eff.Notations Canvas.
Local Open Scope Z_scope.

(** The fields of the grid configuration that [splitIntoTiles] reads. *)
Record config : Type := mkConfig {
  cols : Z;
  rows : Z;
  a4WidthPx : Z;
  a4HeightPx : Z;
  overlapPx : Z;
  addCropMarks : bool
}.

(** What is drawn on a tile's context, in order.  The pixels a tile ends up
    with are the browser's; the calls and their arguments are the code's. *)
Inductive ctxOp : Type :=
| FillRect (x y w h : Z)                      (* [fillStyle = '#ffffff'] *)
| DrawImage (src : canvas) (sx sy sw sh : Q) (dx dy dw dh : Z)
| CropMarks (w h overlap : Z).                (* [this.addCropMarks] *)

Record tileCanvas : Type := mkTileCanvas {
  tc_width : Z;
  tc_height : Z;
  tc_ops : list ctxOp
}.

(** A tile with its metadata ([position] and [label], two strings derived
    from [row], [col] and [index], are left out). *)
Record tile : Type := mkTile {
  tcanvas : tileCanvas;
  row : Z;
  col : Z;
  index : Z;
  hasLeftOverlap : bool;
  hasTopOverlap : bool;
  hasRightOverlap : bool;
  hasBottomOverlap : bool
}.

(** The state of the two loops: [this.tiles] and [tileIndex]. *)
Definition loopState : Type := (list tile * Z)%type.

(** The tile of the grid cell [(row, col)]: its source region with overlap,
    clamped to the canvas bounds, the drawing calls and the metadata. *)
Definition makeTile (canvas : canvas) (config : config)
    (tileContentWidth tileContentHeight overlapSourceX overlapSourceY : Q)
    (row col tileIndex : Z) : tile :=
  let sourceWidth := width canvas in
  let sourceHeight := height canvas in
  let srcX := (inject_Z col * tileContentWidth
               - (if 0 <? col then overlapSourceX else 0))%Q in
  let srcY := (inject_Z row * tileContentHeight
               - (if 0 <? row then overlapSourceY else 0))%Q in
  let srcWidth := (tileContentWidth
                   + (if 0 <? col then overlapSourceX else 0)
                   + (if col <? cols config - 1 then overlapSourceX else 0))%Q in
  let srcHeight := (tileContentHeight
                    + (if 0 <? row then overlapSourceY else 0)
                    + (if row <? rows config - 1 then overlapSourceY else 0))%Q in
  (* Clamp to canvas bounds *)
  let srcX := Qmax 0 srcX in
  let srcY := Qmax 0 srcY in
  let srcWidth := Qmin srcWidth (inject_Z sourceWidth - srcX)%Q in
  let srcHeight := Qmin srcHeight (inject_Z sourceHeight - srcY)%Q in
  let w := a4WidthPx config in
  let h := a4HeightPx config in
  let ops :=
    [FillRect 0 0 w h; DrawImage canvas srcX srcY srcWidth srcHeight 0 0 w h]
    ++ (if addCropMarks config then [CropMarks w h (overlapPx config)]
        else []) in
  mkTile (mkTileCanvas w h ops) row col tileIndex
         (0 <? col) (0 <? row)
         (col <? cols config - 1) (row <? rows config - 1).

(** The body of the loop on [col]: [drawImage] raises on an empty source
    canvas; otherwise the tile is pushed and the progress reported. *)
Definition tileBody (canvas : canvas) (config : config) (cb : callback)
    (tileContentWidth tileContentHeight overlapSourceX overlapSourceY : Q)
    (totalTiles : Z) (row : Z) (st : loopState) (col : Z) : M loopState :=
  let '(tiles, tileIndex) := st in
  if empty canvas then throw InvalidStateError
  else
    let t := makeTile canvas config tileContentWidth tileContentHeight
                      overlapSourceX overlapSourceY row col tileIndex in
    let tileIndex' := tileIndex + 1 in
    notify cb (inject_Z (Math_round
                 (inject_Z tileIndex' / inject_Z totalTiles * 100)%Q)) ;;;
    ret (tiles ++ [t], tileIndex').

(** A [for] loop over [l] with state [s]. *)
Fixpoint forEach {A S : Type} (body : S -> A -> M S) (l : list A) (s : S)
    : M S :=
  match l with
  | [] => ret s
  | a :: l' => s' <- body s a ;; forEach body l' s'
  end.

Definition splitIntoTiles (canvas : canvas) (config : config) (cb : callback)
    : M (list tile) :=
  let sourceWidth := width canvas in
  let sourceHeight := height canvas in
  let tileContentWidth := (inject_Z sourceWidth / inject_Z (cols config))%Q in
  let tileContentHeight := (inject_Z sourceHeight / inject_Z (rows config))%Q in
  let overlapSourceX :=
    (inject_Z (overlapPx config) * tileContentWidth
     / inject_Z (a4WidthPx config))%Q in
  let overlapSourceY :=
    (inject_Z (overlapPx config) * tileContentHeight
     / inject_Z (a4HeightPx config))%Q in
  let totalTiles := rows config * cols config in
  st <- forEach
          (fun st row =>
             forEach (tileBody canvas config cb tileContentWidth
                               tileContentHeight overlapSourceX overlapSourceY
                               totalTiles row)
                     (zrange 0 (cols config)) st)
          (zrange 0 (rows config)) ([], 0) ;;
  ret (fst st).

(** The tile of the cell [(row, col)] with the quantities [splitIntoTiles]
    computes before its loops, and the index the counter has there. *)
Definition tileAt (canvas : canvas) (config : config) (row col : Z) : tile :=
  let tileContentWidth :=
    (inject_Z (width canvas) / inject_Z (cols config))%Q in
  let tileContentHeight :=
    (inject_Z (height canvas) / inject_Z (rows config))%Q in
  let overlapSourceX :=
    (inject_Z (overlapPx config) * tileContentWidth
     / inject_Z (a4WidthPx config))%Q in
  let overlapSourceY :=
    (inject_Z (overlapPx config) * tileContentHeight
     / inject_Z (a4HeightPx config))%Q in
  makeTile canvas config tileContentWidth tileContentHeight
           overlapSourceX overlapSourceY row col (row * cols config + col).

(** The source rectangle [(srcX, srcY, srcWidth, srcHeight)] a tile was
    drawn from. *)
Definition sourceRect (t : tile) : option (Q * Q * Q * Q) :=
  match tc_ops (tcanvas t) with
  | _ :: DrawImage _ sx sy sw sh _ _ _ _ :: _ => Some (sx, sy, sw, sh)
  | _ => None
  end.

(** *** getTile *)

(** [getTile(index)], that is [this.tiles[index] || null], for an integral
    [index]: a tile is an object, hence never falsy. *)
Definition getTile (tiles : list tile) (i : Z) : option tile :=
  if i <? 0 then None else nth_error tiles (Z.to_nat i).

(** *** generateThumbnails *)

(** A tile with its thumbnail: the spread [...tile] and the size of the
    thumbnail (its data URL, the browser's JPEG encoding, is left out). *)
Record thumbnail : Type := mkThumbnail {
  th_tile : tile;
  thumbWidth : Z;
  thumbHeight : Z
}.

(** The callback of [this.tiles.map]: the thumbnail canvas takes the size
    computed from [maxSize]; [drawImage] raises on a tile canvas with a
    zero dimension. *)
Definition makeThumbnail (maxSize : Z) (t : tile) : M thumbnail :=
  let canvas := tcanvas t in
  let scale := Qmin (inject_Z maxSize / inject_Z (tc_width canvas))
                    (inject_Z maxSize / inject_Z (tc_height canvas)) in
  let thumbWidth := Math_round (inject_Z (tc_width canvas) * scale) in
  let thumbHeight := Math_round (inject_Z (tc_height canvas) * scale) in
  if (tc_width canvas =? 0) || (tc_height canvas =? 0)
  then throw InvalidStateError
  else ret (mkThumbnail t thumbWidth thumbHeight).

(** [l.map(f)] for a callback that may raise. *)
Fixpoint mapM {A B : Type} (f : A -> M B) (l : list A) : M (list B) :=
  match l with
  | [] => ret []
  | a :: l' => b <- f a ;; bs <- mapM f l' ;; ret (b :: bs)
  end.

Definition generateThumbnails (tiles : list tile) (maxSize : Z)
    : M (list thumbnail) :=
  mapM (makeThumbnail maxSize) tiles.

End GridSplitter.

(** ** The print exporter *)

Module PrintExporter.

Import JS GridSplitter.
Local Open Scope Z_scope.
Local Open Scope string_scope.

(** [String(n)] for an integer [n]: its decimal numeral. *)
Definition String_of (n : Z) : string := NilZero.string_of_int (Z.to_int n).

(** [s.padStart(targetLength, c)] for a pad string [c] of one character. *)
Definition padStart (s : string) (targetLength : nat) (c : ascii) : string :=
  string_of_list_ascii (repeat c (targetLength - String.length s)) ++ s.

(** The name of the file of a tile:
    [tile-${String(row + 1).padStart(2, '0')}-${... col + 1 ...}.${format}]. *)
Definition tileFilename (row col : Z) (format : string) : string :=
  "tile-" ++ padStart (String_of (row + 1)) 2 "0" ++ "-"
          ++ padStart (String_of (col + 1)) 2 "0" ++ "." ++ format.

Inductive exportError : Type :=
| NoTilesToExport   (* [throw new Error('No tiles to export')] *)
| TileNotFound.     (* [throw new Error('Tile not found')] *)

(** *** exportSingleTile *)

(** What [exportSingleTile] hands to [Utils.downloadBlob]: the canvas, how
    [canvasToBlob] encodes it and the name of the file. *)
Record download : Type := mkDownload {
  dl_canvas : tileCanvas;
  dl_mimeType : string;
  dl_quality : Q;
  dl_filename : string
}.

Definition exportSingleTile (tiles : list tile) (i : Z) (format : string)
    : exportError + download :=
  match getTile tiles i with
  | None => inl TileNotFound
  | Some tile =>
      let mimeType := if String.eqb format "png" then "image/png"
                      else "image/jpeg" in
      let quality := if String.eqb format "png" then 1%Q else (92 # 100)%Q in
      inr (mkDownload (tcanvas tile) mimeType quality
                      (tileFilename (row tile) (col tile) format))
  end.

(** *** exportAsZip *)

(** What a file of the archive holds: the text of the assembly guide (left
    out) or the PNG encoding of a tile's canvas. *)
Inductive zipBody : Type :=
| GuideText
| TilePng (c : tileCanvas).

(** [folder.file(name, body)] adds the file, or replaces the file of that
    name. *)
Definition file (name : string) (body : zipBody)
    (folder : list (string * zipBody)) : list (string * zipBody) :=
  if existsb (fun e => String.eqb (fst e) name) folder
  then map (fun e => if String.eqb (fst e) name then (name, body) else e)
           folder
  else folder ++ [(name, body)].

(** The files [exportAsZip] puts into the folder before it generates the
    archive. *)
Definition zipFolder (tiles : list tile)
    : exportError + list (string * zipBody) :=
  match tiles with
  | [] => inl NoTilesToExport
  | _ =>
      inr (fold_left
             (fun folder tile =>
                file (tileFilename (row tile) (col tile) "png")
                     (TilePng (tcanvas tile)) folder)
             tiles
             (file "assembly-guide.txt" GuideText []))
  end.

(** *** The overlap the assembly guide states *)

(** [this.config.overlapPx ? Utils.pixelsToMm(this.config.overlapPx, 300) : 0],
    as [generateAssemblyGuide] and [addAssemblyGuidePage] compute it. *)
Definition guideOverlapMm (overlapPx : Z) : Q :=
  if (overlapPx =? 0)%Z then 0%Q
  else Utils.pixelsToMm (inject_Z overlapPx) 300.

(** The number of millimetres in the text: [Math.round(overlapMm)]. *)
Definition guideOverlapText (overlapPx : Z) : Z :=
  Math_round (guideOverlapMm overlapPx).

(** The page number the guide gives the cell [(row, col)]. *)
Definition pageNum (cols row col : Z) : Z := row * cols + col + 1.

End PrintExporter.

(** ** The application *)

Module App.

Import JS Eff Eff.Notations Canvas.
Local Open Scope Z_scope.

(** The fields of [this.state] the functions below read, and
    [this.currentGridConfig].  The sizes are in centimetres, the overlap in
    millimetres, all read with [parseInt]. *)
Record state : Type := mkState {
  originalImage : option ImageProcessor.image;
  targetWidth : Z;
  targetHeight : Z;
  dpi : Z;
  orientation : string;
  overlap : Z;
  algorithm : string;
  currentGridConfig : option Utils.gridDimensions
}.

(** *** updatePreview *)

(** The size [updatePreview] gives the preview canvas, from the natural
    size of the image and the client size of the container. *)
Definition previewSize (naturalWidth naturalHeight clientWidth clientHeight : Z)
    : Z * Z :=
  (* Fallback dimensions if container hasn't rendered yet *)
  let containerWidth :=
    if (clientWidth =? 0) || (clientHeight =? 0) then 600 else clientWidth in
  let containerHeight :=
    if (clientWidth =? 0) || (clientHeight =? 0) then 400 else clientHeight in
  let scale :=
    Qmin (Qmin (inject_Z containerWidth / inject_Z naturalWidth)
               (inject_Z containerHeight / inject_Z naturalHeight))
         1 in
  (* Ensure minimum dimensions *)
  (Z.max (Math_round (inject_Z naturalWidth * scale)) 100,
   Z.max (Math_round (inject_Z naturalHeight * scale)) 100).

(** *** updateGridInfo *)

(** The configuration [updateGridInfo] stores; without an image it stores
    nothing. *)
Definition updateGridInfo (st : state) : state :=
  match originalImage st with
  | None => st
  | Some _ =>
      let targetWidthMm := Utils.cmToMm (inject_Z (targetWidth st)) in
      let targetHeightMm := Utils.cmToMm (inject_Z (targetHeight st)) in
      let gridConfig :=
        Utils.calculateGridDimensions targetWidthMm targetHeightMm
          (inject_Z (dpi st)) (orientation st) (inject_Z (overlap st)) in
      mkState (originalImage st) (targetWidth st) (targetHeight st) (dpi st)
              (orientation st) (overlap st) (algorithm st) (Some gridConfig)
  end.

(** The factor [updateGridInfo] displays. *)
Definition upscaleFactor (st : state) : option Q :=
  match originalImage st, currentGridConfig (updateGridInfo st) with
  | Some img, Some gridConfig =>
      Some (Utils.calculateUpscaleFactor
              (ImageProcessor.naturalWidth img)
              (ImageProcessor.naturalHeight img)
              (Utils.targetWidthPx gridConfig)
              (Utils.targetHeightPx gridConfig))
  | _, _ => None
  end.

(** *** generateGrid *)

(** A call [m] with the progress callback
    [(progress) => this.updateProgress(f(progress))]: what [updateProgress]
    receives is what [m] passes to its callback, through [f]. *)
Definition withProgress {A : Type} (f : Q -> Q) (m : callback -> M A) : M A :=
  fun log => let '(r, calls) := m Observer [] in (r, log ++ map f calls).

Inductive outcome : Type :=
| PleaseLoadAnImage           (* [alert('Please load an image first')] *)
| FailedToGenerate (e : error)                      (* the [catch] block *)
| GridShown (thumbnails : list GridSplitter.thumbnail)
            (tiles : list GridSplitter.tile) (config : GridSplitter.config).

Section Filter.

Variable filter : canvas -> Z -> Z -> Z -> Z.

(** The steps of [generateGrid] inside its [try] block: upscale, split,
    thumbnails. *)
Definition generateSteps (img : ImageProcessor.image)
    (g : Utils.gridDimensions) (algorithm : string)
    : M (list GridSplitter.thumbnail * list GridSplitter.tile
         * GridSplitter.config) :=
  upscaledCanvas <-
    withProgress (fun progress => progress * (6 # 10))%Q
      (ImageProcessor.upscale filter (Some img) (Utils.targetWidthPx g)
                              (Utils.targetHeightPx g) algorithm) ;;
  let config :=
    GridSplitter.mkConfig (Utils.cols g) (Utils.rows g) (Utils.a4WidthPx g)
                          (Utils.a4HeightPx g) (Utils.overlapPx g) true in
  tiles <-
    withProgress (fun progress => 60 + progress * (4 # 10))%Q
      (GridSplitter.splitIntoTiles upscaledCanvas config) ;;
  tilesWithThumbnails <- GridSplitter.generateThumbnails tiles 180 ;;
  ret (tilesWithThumbnails, tiles, config).

(** [generateGrid]: what the user gets, and the values [updateProgress] was
    called with. *)
Definition generateGrid (st : state) : outcome * list Q :=
  match originalImage st, currentGridConfig st with
  | Some img, Some g =>
      match generateSteps img g (algorithm st) [] with
      | (inr (thumbnails, tiles, config), shown) =>
          (GridShown thumbnails tiles config, shown)
      | (inl e, shown) => (FailedToGenerate e, shown)
      end
  | _, _ => (PleaseLoadAnImage, [])
  end.

End Filter.

End App.

(** ** utils.js: debounce *)

Module Debounce.

Local Open Scope Z_scope.

Section Debounce.

(** The arguments [...args] of the debounced function, and [wait]. *)
Variable A : Type.
Variable wait : Z.

(** A timer of the browser: its handle, when it is due, and the arguments
    captured by the closure [later] it runs. *)
Record timer : Type := mkTimer {
  handle : nat;
  due : Z;
  args : A
}.

(** The clock and the timer table of the browser, the variable [timeout]
    of the closure, and the calls of [func] so far, each with its time. *)
Record state : Type := mkState {
  now : Z;
  nextHandle : nat;
  pending : list timer;
  timeout : option nat;
  calls : list (Z * A)
}.

(** [clearTimeout(h)]; [undefined] and unknown handles clear nothing. *)
Definition clearTimeout (h : option nat) (st : state) : state :=
  match h with
  | None => st
  | Some h =>
      mkState (now st) (nextHandle st)
              (filter (fun t => negb (Nat.eqb (handle t) h)) (pending st))
              (timeout st) (calls st)
  end.

(** [setTimeout(later, delay)], with [later] closed over [a]: a negative
    delay counts as [0]. *)
Definition setTimeout (a : A) (delay : Z) (st : state) : nat * state :=
  (nextHandle st,
   mkState (now st) (S (nextHandle st))
           (pending st ++ [mkTimer (nextHandle st) (now st + Z.max 0 delay) a])
           (timeout st) (calls st)).

(** [later = () => { clearTimeout(timeout); func(...args); }]. *)
Definition later (a : A) (st : state) : state :=
  let st := clearTimeout (timeout st) st in
  mkState (now st) (nextHandle st) (pending st) (timeout st)
          (calls st ++ [(now st, a)]).

(** [executedFunction(...args)]. *)
Definition executedFunction (a : A) (st : state) : state :=
  let st := clearTimeout (timeout st) st in
  let '(h, st) := setTimeout a wait st in
  mkState (now st) (nextHandle st) (pending st) (Some h) (calls st).

(** The event loop: of the timers due at [t], the one due first (the
    older one on a tie). *)
Fixpoint earliest (l : list timer) : option timer :=
  match l with
  | [] => None
  | t :: l' =>
      match earliest l' with
      | Some t' => if due t' <? due t then Some t' else Some t
      | None => Some t
      end
  end.

Definition nextDue (t : Z) (st : state) : option timer :=
  earliest (filter (fun tm => due tm <=? t) (pending st)).

(** The timers due at [t] fire one by one, each at its due time if the
    clock has not passed it; a timer that fires leaves the table. *)
Fixpoint runTimers (fuel : nat) (t : Z) (st : state) : state :=
  match fuel with
  | O => st
  | S fuel' =>
      match nextDue t st with
      | None => st
      | Some tm =>
          runTimers fuel' t
            (later (args tm)
               (mkState (Z.max (now st) (due tm)) (nextHandle st)
                        (filter (fun t' => negb (Nat.eqb (handle t')
                                                         (handle tm)))
                                (pending st))
                        (timeout st) (calls st)))
      end
  end.

(** Time passes until [t].  No callback sets a timer, so a turn per
    pending timer is enough. *)
Definition advance (t : Z) (st : state) : state :=
  let st' := runTimers (length (pending st)) t st in
  mkState (Z.max (now st') t) (nextHandle st') (pending st') (timeout st')
          (calls st').

(** What happens to a debounced function: it is called at a time, or time
    passes. *)
Inductive event : Type :=
| Invoke (t : Z) (a : A)
| Idle (t : Z).

Definition step (st : state) (e : event) : state :=
  match e with
  | Invoke t a => executedFunction a (advance t st)
  | Idle t => advance t st
  end.

(** [debounce(func, wait)] returns the closure with [timeout] undefined. *)
Definition debounce : state := mkState 0 0 [] None [].

Definition run (events : list event) : state := fold_left step events debounce.

End Debounce.

End Debounce.

(** ** The specification's formulas *)

Module Spec.

Local Open Scope Z_scope.

(** Section 4.2, step 2: the overlap in source space,
    [overlapPx * (tileContent / pagePx)]. *)
Definition overlapSource (overlapPx : Z) (tileContent : Q) (pagePx : Z) : Q :=
  (inject_Z overlapPx * (tileContent / inject_Z pagePx))%Q.

(** Step 3, one axis: where the region of cell [i] starts before clamping
    ("no left expansion for the first column"). *)
Definition regionStart (i : Z) (tileContent overlap : Q) : Q :=
  if 0 <? i then (inject_Z i * tileContent - overlap)%Q
  else (inject_Z i * tileContent)%Q.

(** Step 3, one axis: the extent of the region of cell [i] of [n] before
    clamping ("each interior edge individually contributes"). *)
Definition regionExtent (i n : Z) (tileContent overlap : Q) : Q :=
  (tileContent + (if 0 <? i then overlap else 0)
               + (if i <? n - 1 then overlap else 0))%Q.

(** Section 4.1, lanczos: the scale after [k] doubling passes,
    [nextScale = min(currentScale * 2, targetScale)] from [1]. *)
Fixpoint passScale (k : nat) (targetScale : Q) : Q :=
  match k with
  | O => 1%Q
  | S k' => Qmin (passScale k' targetScale * 2) targetScale
  end.

(** The size of the output of pass [k]. *)
Definition passSize (srcWidth srcHeight : Z) (targetScale : Q) (k : nat)
    : Z * Z :=
  (JS.Math_round (inject_Z srcWidth * passScale k targetScale),
   JS.Math_round (inject_Z srcHeight * passScale k targetScale)).

(** The sizes of the [ceil(log2(scale))] passes, in order. *)
Definition stagedPlan (srcWidth srcHeight : Z) (scale : Q) : list (Z * Z) :=
  map (passSize srcWidth srcHeight scale)
      (seq 1 (Z.to_nat (JS.Math_ceil_log2 scale))).

(** Pass after pass: each one resamples the output of the one before it,
    and reports its rank out of [total]. *)
Fixpoint foldPasses (plan : list (Z * Z)) (k total : Z) (cb : Eff.callback)
    (previous : Canvas.canvas) : Eff.M Canvas.canvas :=
  match plan with
  | [] => Eff.ret previous
  | (w, h) :: rest =>
      Eff.bind
        (ImageProcessor.lanczosResample previous w h Eff.NoCallback)
        (fun output =>
           Eff.bind
             (Eff.notify cb (10 + 80 * inject_Z (k + 1) / inject_Z total)%Q)
             (fun _ => foldPasses rest (k + 1) total cb output))
  end.

End Spec.

(** ** Inputs used in the examples *)

Module Samples.

Import JS Eff Canvas.
Local Open Scope Z_scope.

(** A nearest-neighbour rendering, standing for the browser's filter where
    an example needs one. *)
Definition nearest (src : canvas) (w h i : Z) : Z :=
  let p := i / 4 in
  let x := p mod w in
  let y := p / w in
  let sx := x * width src / w in
  let sy := y * height src / h in
  nth (Z.to_nat ((sy * width src + sx) * 4 + i mod 4)) (data src) 0.

(** A canvas of the given size whose pixels are not looked at. *)
Definition blank (w h : Z) : canvas := mkCanvas w h [].

(** The grid of the specification's example: 3 by 2 pages of 2480 by 3508
    pixels with 118 pixels of overlap. *)
Definition a4grid : GridSplitter.config :=
  GridSplitter.mkConfig 3 2 2480 3508 118 true.

End Samples.

(** ** Shapes of pictures and of plans *)

Module Shapes.

Import Canvas.
Local Open Scope Z_scope.

(** A picture of one colour: every pixel of [c] is the pixel [px], four
    bytes in the order red, green, blue, alpha. *)
Definition uniform (px : list Z) (c : canvas) : Prop :=
  forall i, 0 <= i < 4 * width c * height c ->
    nth (Z.to_nat i) (data c) 0 = nth (Z.to_nat (i mod 4)) px 0.

(** A plan of sizes that starts from [(w, h)] and at no step more than
    doubles a side. *)
Fixpoint gentle (w h : Z) (steps : list (Z * Z)) : Prop :=
  match steps with
  | [] => True
  | (w', h') :: rest =>
      1 <= w' <= 2 * w /\ 1 <= h' <= 2 * h /\ gentle w' h' rest
  end.

(** The number of turns of the loop on [startY] of [lanczosResample] that
    are left at [startY]: the chunks of [chunkSize] rows up to
    [targetHeight]. *)
Definition chunkCount (targetHeight chunkSize startY : Z) : nat :=
  Z.to_nat ((targetHeight - startY + chunkSize - 1) / chunkSize).

(** What that loop reports after its turn of rank [k] from [startY]. *)
Definition chunkReport (targetHeight chunkSize startY : Z) (k : nat) : Q :=
  (10 + 80 * inject_Z (Z.min (startY + Z.of_nat k * chunkSize) targetHeight)
        / inject_Z targetHeight)%Q.

(** What [splitIntoTiles] reports after tile [k] of [totalTiles]. *)
Definition tileReport (totalTiles k : Z) : Q :=
  inject_Z (JS.Math_round (inject_Z k / inject_Z totalTiles * 100)%Q).

End Shapes.

(** * Properties *)

(** ** Loops, stores and progress logs *)

Module Basics.

Import JS Eff Canvas.
Local Open Scope Z_scope.

Lemma zrange_nil (lo hi : Z) : hi <= lo -> zrange lo hi = [].
Proof.
  intros H. unfold zrange. replace (Z.to_nat (hi - lo)) with O by lia.
  reflexivity.
Qed.


Lemma map_seq_shift (a a' : Z) (n s t : nat) :
  a + Z.of_nat s = a' + Z.of_nat t ->
  map (fun i => a + Z.of_nat i) (seq s n)
  = map (fun i => a' + Z.of_nat i) (seq t n).
Proof.
  revert s t. induction n as [|n IH]; intros s t H; [reflexivity|].
  cbn [seq map]. f_equal; [exact H|]. apply IH. lia.
Qed.

Lemma zrange_app (a b c : Z) :
  a <= b -> b <= c -> zrange a b ++ zrange b c = zrange a c.
Proof.
  intros Hab Hbc. unfold zrange.
  replace (Z.to_nat (c - a))
    with (Z.to_nat (b - a) + Z.to_nat (c - b))%nat by lia.
  rewrite seq_app, map_app. f_equal.
  apply map_seq_shift. lia.
Qed.



(** *** Stores *)

Lemma toUint8Clamped_byte (v : jsint) : byte (toUint8Clamped v).
Proof. unfold byte. destruct v; cbn; lia. Qed.

Lemma length_set_nth (n : nat) (v : Z) (l : list Z) :
  length (set_nth n v l) = length l.
Proof.
  revert n. induction l as [|h t IH]; intros [|n]; cbn; auto.
Qed.

Lemma Forall_set_nth (P : Z -> Prop) (n : nat) (v : Z) (l : list Z) :
  P v -> Forall P l -> Forall P (set_nth n v l).
Proof.
  intros Hv. revert n. induction l as [|h t IH]; intros [|n] Hl; cbn; auto;
    inversion Hl; subst; constructor; auto.
Qed.


Lemma length_store (i : Z) (v : jsint) (l : list Z) :
  length (store i v l) = length l.
Proof. unfold store. destruct (i <? 0); [reflexivity|apply length_set_nth]. Qed.

Lemma Forall_store (i : Z) (v : jsint) (l : list Z) :
  Forall byte l -> Forall byte (store i v l).
Proof.
  intros H. unfold store. destruct (i <? 0); [exact H|].
  apply Forall_set_nth; [apply toUint8Clamped_byte|exact H].
Qed.


(** *** Integers as rationals *)

Lemma inject_Z_pos (z : Z) : 0 < z -> (0 < inject_Z z)%Q.
Proof. intros H. rewrite Zlt_Qlt in H. exact H. Qed.

Lemma inject_Z_nonneg (z : Z) : 0 <= z -> (0 <= inject_Z z)%Q.
Proof. intros H. rewrite Zle_Qle in H. exact H. Qed.

Lemma Qdiv_pos (a b : Z) : 0 < a -> 0 < b -> (0 < inject_Z a / inject_Z b)%Q.
Proof.
  intros Ha Hb. apply Qlt_shift_div_l.
  - now apply inject_Z_pos.
  - apply inject_Z_pos in Ha. lra.
Qed.

(** *** Sequencing *)

Lemma bind_ext {A B : Type} (m : M A) (k1 k2 : A -> M B) (log : list Q) :
  (forall a log', k1 a log' = k2 a log') -> bind m k1 log = bind m k2 log.
Proof.
  intros H. unfold bind. destruct (m log) as [[e|a] log']; [reflexivity|].
  apply H.
Qed.

(** *** Progress logs *)


Lemma rising_weaken (lo lo' hi hi' : Q) (l : list Q) :
  (lo' <= lo)%Q -> (hi <= hi')%Q -> rising lo hi l -> rising lo' hi' l.
Proof.
  revert lo lo'. induction l as [|v l IH]; intros lo lo' Hlo Hhi H; cbn in *.
  - lra.
  - destruct H as [H1 H2]. split; [lra|].
    apply (IH v v); [lra|exact Hhi|exact H2].
Qed.


Lemma rising_single (lo hi v : Q) :
  (lo <= v)%Q -> (v <= hi)%Q -> rising lo hi [v].
Proof. intros H1 H2. cbn. split; assumption. Qed.



End Basics.

(** ** The grid splitter *)

Module TilerFacts.

Import JS Eff Eff.Notations Canvas GridSplitter Basics.
Local Open Scope Z_scope.

Section Grid.

Variable canvas : canvas.
Variable config : config.
Variable cb : callback.

Let tcw : Q := (inject_Z (width canvas) / inject_Z (cols config))%Q.
Let tch : Q := (inject_Z (height canvas) / inject_Z (rows config))%Q.
Let ovx : Q :=
  (inject_Z (overlapPx config) * tcw / inject_Z (a4WidthPx config))%Q.
Let ovy : Q :=
  (inject_Z (overlapPx config) * tch / inject_Z (a4HeightPx config))%Q.
Let nc : nat := Z.to_nat (cols config).
Let nr : nat := Z.to_nat (rows config).

(** The tile the loops build for the cell [(r, c)]. *)
Let cell (r c : nat) : tile :=
  makeTile canvas config tcw tch ovx ovy (Z.of_nat r) (Z.of_nat c)
           (Z.of_nat r * Z.of_nat nc + Z.of_nat c).

Hypothesis nonempty : empty canvas = false.

Lemma cols_loop (r : nat) (n s : nat) (tiles : list tile) (log : list Q) :
  exists log',
    forEach (tileBody canvas config cb tcw tch ovx ovy
                      (rows config * cols config) (Z.of_nat r))
            (map (fun i => 0 + Z.of_nat i) (seq s n))
            (tiles, Z.of_nat r * Z.of_nat nc + Z.of_nat s) log
    = (inr (tiles ++ map (cell r) (seq s n),
            Z.of_nat r * Z.of_nat nc + Z.of_nat (s + n)), log').
Proof.
  revert s tiles log. induction n as [|n IH]; intros s tiles log.
  - exists log. cbn. now rewrite app_nil_r, Nat.add_0_r.
  - cbn [seq map forEach]. unfold bind at 1.
    unfold tileBody at 1. rewrite nonempty.
    unfold bind at 1.
    destruct (notify cb _ log) as [[e|[]] log1] eqn:Hn.
    { unfold notify in Hn. destruct cb; discriminate. }
    unfold ret at 1.
    replace (Z.of_nat r * Z.of_nat nc + Z.of_nat s + 1)
      with (Z.of_nat r * Z.of_nat nc + Z.of_nat (S s)) by lia.
    destruct (IH (S s)
                (tiles ++ [makeTile canvas config tcw tch ovx ovy (Z.of_nat r)
                             (0 + Z.of_nat s)
                             (Z.of_nat r * Z.of_nat nc + Z.of_nat s)])
                log1) as [log' IH'].
    exists log'. rewrite IH'. rewrite <- app_assoc. cbn [app].
    replace (S s + n)%nat with (s + S n)%nat by lia. reflexivity.
Qed.

Lemma rows_loop (n s : nat) (tiles : list tile) (log : list Q) :
  exists log',
    forEach (fun st row =>
               forEach (tileBody canvas config cb tcw tch ovx ovy
                                 (rows config * cols config) row)
                       (zrange 0 (cols config)) st)
            (map (fun i => 0 + Z.of_nat i) (seq s n))
            (tiles, Z.of_nat s * Z.of_nat nc) log
    = (inr (tiles ++ flat_map (fun r => map (cell r) (seq 0 nc)) (seq s n),
            Z.of_nat (s + n) * Z.of_nat nc), log').
Proof.
  revert s tiles log. induction n as [|n IH]; intros s tiles log.
  - exists log. cbn. now rewrite app_nil_r, Nat.add_0_r.
  - cbn [seq map forEach flat_map]. unfold bind at 1.
    unfold zrange at 1. rewrite Z.sub_0_r. fold nc.
    destruct (cols_loop s nc 0 tiles log) as [log1 H1].
    change (0 + Z.of_nat s) with (Z.of_nat s).
    rewrite Z.add_0_r in H1. rewrite H1.
    replace (Z.of_nat s * Z.of_nat nc + Z.of_nat (0 + nc))
      with (Z.of_nat (S s) * Z.of_nat nc) by lia.
    destruct (IH (S s) (tiles ++ map (cell s) (seq 0 nc)) log1) as [log' IH'].
    exists log'. rewrite IH'. rewrite <- app_assoc.
    replace (S s + n)%nat with (s + S n)%nat by lia. reflexivity.
Qed.

Lemma cell_tileAt (r c : nat) :
  (c < nc)%nat -> cell r c = tileAt canvas config (Z.of_nat r) (Z.of_nat c).
Proof.
  intros Hc. unfold cell, tileAt. fold tcw tch. fold ovx ovy.
  replace (Z.of_nat nc) with (cols config) by (unfold nc in *; lia).
  reflexivity.
Qed.

(** The tiles, row by row. *)
Lemma splitIntoTiles_run (log : list Q) :
  exists log',
    splitIntoTiles canvas config cb log
    = (inr (flat_map
              (fun r => map (fun c => tileAt canvas config (Z.of_nat r)
                                             (Z.of_nat c))
                            (seq 0 nc))
              (seq 0 nr)), log').
Proof.
  unfold splitIntoTiles, bind.
  unfold zrange at 2. rewrite Z.sub_0_r. fold nr.
  destruct (rows_loop nr 0 [] log) as [log' H].
  change (Z.of_nat 0 * Z.of_nat nc) with 0 in H.
  fold tcw tch. fold ovx ovy.
  rewrite H. exists log'. cbn [fst app ret]. unfold ret. do 2 f_equal.
  apply flat_map_ext. intros r. apply map_ext_in. intros c Hc.
  apply cell_tileAt. apply in_seq in Hc. lia.
Qed.

End Grid.

(** Every run over a non-empty canvas returns the tiles of the cells, each
    cell once. *)
Lemma tiles_of_grid canvas config cb log :
  empty canvas = false ->
  exists tiles log',
    splitIntoTiles canvas config cb log = (inr tiles, log') /\
    (forall t, In t tiles <->
       exists r c, 0 <= r < rows config /\ 0 <= c < cols config /\
                   t = tileAt canvas config r c) /\
    Z.of_nat (length tiles) = Z.max 0 (rows config) * Z.max 0 (cols config).
Proof.
  intros Hne.
  destruct (splitIntoTiles_run canvas config cb Hne log) as [log' H].
  eexists. exists log'. split; [exact H|]. split.
  - intros t. rewrite in_flat_map. split.
    + intros (r & Hr & Ht). apply in_map_iff in Ht.
      destruct Ht as (c & <- & Hc). apply in_seq in Hr, Hc.
      exists (Z.of_nat r), (Z.of_nat c). repeat split; lia.
    + intros (r & c & Hr & Hc & ->).
      exists (Z.to_nat r). split; [apply in_seq; lia|].
      apply in_map_iff. exists (Z.to_nat c).
      rewrite !Z2Nat.id by lia. split; [reflexivity|apply in_seq; lia].
  - assert (Hlen : forall s n,
               length (flat_map
                 (fun r => map (fun c => tileAt canvas config (Z.of_nat r)
                                             (Z.of_nat c))
                               (seq 0 (Z.to_nat (cols config)))) (seq s n))
               = (n * Z.to_nat (cols config))%nat).
    { intros s m. revert s. induction m as [|m IH]; intros s; [reflexivity|].
      cbn [seq flat_map]. rewrite length_app, length_map, length_seq, IH.
      reflexivity. }
    rewrite Hlen, Nat2Z.inj_mul.
    replace (Z.of_nat (Z.to_nat (rows config))) with (Z.max 0 (rows config))
      by lia.
    replace (Z.of_nat (Z.to_nat (cols config))) with (Z.max 0 (cols config))
      by lia.
    reflexivity.
Qed.

(** *** Arithmetic of the clamped regions *)

Lemma Qmax_0_nonneg (x : Q) : (0 <= Qmax 0 x)%Q.
Proof. apply Q.le_max_l. Qed.

Lemma Qmin_fits (a w x : Q) : (x + Qmin a (w - x) <= w)%Q.
Proof. pose proof (Q.le_min_r a (w - x)). lra. Qed.

(** The source's [(overlapPx * tileContent) / pagePx] is the
    specification's [overlapPx * (tileContent / pagePx)]. *)
Lemma overlapSource_eq (o : Z) (tc : Q) (p : Z) :
  (inject_Z o * tc / inject_Z p == Spec.overlapSource o tc p)%Q.
Proof. unfold Spec.overlapSource, Qdiv. ring. Qed.

Lemma regionStart_eq (i : Z) (tc ov ov' : Q) :
  (ov == ov')%Q ->
  (inject_Z i * tc - (if 0 <? i then ov else 0)
   == Spec.regionStart i tc ov')%Q.
Proof.
  intros H. unfold Spec.regionStart. destruct (0 <? i); rewrite ?H; ring.
Qed.

Lemma regionExtent_eq (i n : Z) (tc ov ov' : Q) :
  (ov == ov')%Q ->
  (tc + (if 0 <? i then ov else 0) + (if i <? n - 1 then ov else 0)
   == Spec.regionExtent i n tc ov')%Q.
Proof.
  intros H. unfold Spec.regionExtent.
  destruct (0 <? i), (i <? n - 1); rewrite ?H; ring.
Qed.

(** The start of a region lies at or before the nominal boundary of its
    cell, strictly before it exactly when there is overlap to subtract. *)
Lemma start_vs_boundary (i : Z) (tc ov : Q) :
  0 <= i -> (0 < tc)%Q -> (0 <= ov)%Q ->
  let start := Qmax 0 (inject_Z i * tc - (if 0 <? i then ov else 0)) in
  (i = 0 -> (start == 0)%Q) /\
  (start <= inject_Z i * tc)%Q /\
  (0 < i -> (0 < ov)%Q -> (start < inject_Z i * tc)%Q) /\
  ((ov == 0)%Q -> (start == inject_Z i * tc)%Q).
Proof.
  intros Hi Htc Hov start.
  assert (Hpos : (0 <= inject_Z i * tc)%Q).
  { apply Qmult_le_0_compat; [now apply inject_Z_nonneg|lra]. }
  assert (Hspos : 0 < i -> (0 < inject_Z i * tc)%Q).
  { intros H. apply Qmult_lt_0_compat; [now apply inject_Z_pos|lra]. }
  subst start.
  destruct (Q.max_spec 0 (inject_Z i * tc - (if 0 <? i then ov else 0)))
    as [[Hlt Heq]|[Hle Heq]]; rewrite Heq; clear Heq.
  - split; [|split; [|split]].
    + intros ->. change (inject_Z 0) with 0%Q in *. cbn in *. lra.
    + destruct (0 <? i); lra.
    + intros H1 H2. apply Z.ltb_lt in H1. rewrite H1. lra.
    + intros H0. destruct (0 <? i); lra.
  - split; [|split; [|split]].
    + intros _. reflexivity.
    + lra.
    + intros H1 H2. apply Hspos. exact H1.
    + intros H0. destruct (0 <? i); lra.
Qed.

(** C4 (amended).  [splitIntoTiles] validates nothing: over a non-empty
    canvas it does not fail for any grid configuration, whatever the signs
    of [cols], [rows] and [overlapPx] and however large the overlap; it
    returns [max(0, rows) * max(0, cols)] tiles, hence none when [cols < 1]
    or [rows < 1]. *)
Theorem splitIntoTiles_validates_nothing canvas config cb log :
  empty canvas = false ->
  exists tiles log',
    splitIntoTiles canvas config cb log = (inr tiles, log') /\
    Z.of_nat (length tiles) = Z.max 0 (rows config) * Z.max 0 (cols config).
Proof.
  intros Hne.
  destruct (tiles_of_grid canvas config cb log Hne)
    as (tiles & log' & Hrun & _ & Hlen).
  exists tiles, log'. split; assumption.
Qed.

Lemma splitIntoTiles_validates_nothing_witness :
  empty (Samples.blank 6000 4000) = false /\
  exists tiles log',
    splitIntoTiles (Samples.blank 6000 4000) Samples.a4grid Observer []
    = (inr tiles, log') /\
    Z.of_nat (length tiles)
    = Z.max 0 (rows Samples.a4grid) * Z.max 0 (cols Samples.a4grid).
Proof.
  split; [reflexivity|].
  apply (splitIntoTiles_validates_nothing (Samples.blank 6000 4000)
           Samples.a4grid Observer []).
  reflexivity.
Defined.

(** C4 as stated fails: a grid with no column and a negative overlap is
    accepted and yields the empty list of tiles, and a grid whose only
    defect is a negative overlap yields all its tiles. *)
Lemma splitIntoTiles_accepts_invalid_grid :
  let noColumn := mkConfig 0 2 2480 3508 (-5) true in
  let negative := mkConfig 2 1 2480 3508 (-5) false in
  cols noColumn < 1 /\ overlapPx negative < 0 /\
  splitIntoTiles (Samples.blank 6000 4000) noColumn Observer []
  = (inr [], []) /\
  exists t0 t1,
    splitIntoTiles (Samples.blank 6000 4000) negative NoCallback []
    = (inr [t0; t1], []).
Proof.
  cbv zeta. split; [reflexivity|]. split; [reflexivity|].
  split; [vm_compute; reflexivity|].
  eexists; eexists. vm_compute. reflexivity.
Qed.

(** The source rectangle of the tile of a cell. *)
Lemma sourceRect_tileAt canvas config r c :
  let tcw := (inject_Z (width canvas) / inject_Z (cols config))%Q in
  let tch := (inject_Z (height canvas) / inject_Z (rows config))%Q in
  let ovx :=
    (inject_Z (overlapPx config) * tcw / inject_Z (a4WidthPx config))%Q in
  let ovy :=
    (inject_Z (overlapPx config) * tch / inject_Z (a4HeightPx config))%Q in
  let srcX := Qmax 0 (inject_Z c * tcw - (if 0 <? c then ovx else 0)) in
  let srcY := Qmax 0 (inject_Z r * tch - (if 0 <? r then ovy else 0)) in
  sourceRect (tileAt canvas config r c)
  = Some (srcX, srcY,
          Qmin (tcw + (if 0 <? c then ovx else 0)
                    + (if c <? cols config - 1 then ovx else 0))
               (inject_Z (width canvas) - srcX),
          Qmin (tch + (if 0 <? r then ovy else 0)
                    + (if r <? rows config - 1 then ovy else 0))
               (inject_Z (height canvas) - srcY)).
Proof. reflexivity. Qed.

(** C5.  On a non-empty source and pages of positive size, every cell
    [(row, col)] of the grid gets a tile, and the source rectangle of every
    tile is the one of the specification: it starts at
    [col * tileContentWidth], moved left by [overlapSourceX] exactly when
    [col > 0]; its width is [tileContentWidth] plus [overlapSourceX] for
    the left edge when [col > 0] and for the right edge when
    [col < columns - 1]; likewise for rows; then the start is clamped to
    [>= 0] and the extent so that the rectangle stays inside the source. *)
Theorem tile_source_rectangle canvas config cb log :
  0 < width canvas -> 0 < height canvas ->
  0 < a4WidthPx config -> 0 < a4HeightPx config ->
  let tileContentWidth :=
    (inject_Z (width canvas) / inject_Z (cols config))%Q in
  let tileContentHeight :=
    (inject_Z (height canvas) / inject_Z (rows config))%Q in
  let overlapSourceX :=
    Spec.overlapSource (overlapPx config) tileContentWidth
                       (a4WidthPx config) in
  let overlapSourceY :=
    Spec.overlapSource (overlapPx config) tileContentHeight
                       (a4HeightPx config) in
  exists tiles log',
    splitIntoTiles canvas config cb log = (inr tiles, log') /\
    (forall r c, 0 <= r < rows config -> 0 <= c < cols config ->
       exists t, In t tiles /\ row t = r /\ col t = c) /\
    forall t, In t tiles ->
      0 <= row t < rows config /\ 0 <= col t < cols config /\
      exists srcX srcY srcWidth srcHeight,
        sourceRect t = Some (srcX, srcY, srcWidth, srcHeight) /\
        (srcX == Qmax 0 (Spec.regionStart (col t) tileContentWidth
                                          overlapSourceX))%Q /\
        (srcY == Qmax 0 (Spec.regionStart (row t) tileContentHeight
                                          overlapSourceY))%Q /\
        (srcWidth == Qmin (Spec.regionExtent (col t) (cols config)
                                             tileContentWidth overlapSourceX)
                          (inject_Z (width canvas) - srcX))%Q /\
        (srcHeight == Qmin (Spec.regionExtent (row t) (rows config)
                                              tileContentHeight overlapSourceY)
                           (inject_Z (height canvas) - srcY))%Q /\
        (0 <= srcX)%Q /\ (0 <= srcY)%Q /\
        (srcX + srcWidth <= inject_Z (width canvas))%Q /\
        (srcY + srcHeight <= inject_Z (height canvas))%Q.
Proof.
  intros Hw Hh _ _ tcw tch ovx ovy.
  assert (Hne : empty canvas = false).
  { unfold empty. apply orb_false_iff. split; apply Z.eqb_neq; lia. }
  destruct (tiles_of_grid canvas config cb log Hne)
    as (tiles & log' & Hrun & Hin & _).
  exists tiles, log'. split; [exact Hrun|]. split.
  - intros r c Hr Hc. exists (tileAt canvas config r c). split.
    + apply Hin. exists r, c. auto.
    + split; reflexivity.
  - intros t Ht. apply Hin in Ht. destruct Ht as (r & c & Hr & Hc & ->).
    split; [exact Hr|]. split; [exact Hc|].
    rewrite sourceRect_tileAt. cbv zeta.
    do 4 eexists. split; [reflexivity|].
    cbn [row col tileAt makeTile]. fold tcw tch.
    pose proof (overlapSource_eq (overlapPx config) tcw (a4WidthPx config))
      as Hx.
    pose proof (overlapSource_eq (overlapPx config) tch (a4HeightPx config))
      as Hy.
    fold ovx in Hx. fold ovy in Hy.
    split; [apply Q.max_compat; [reflexivity|now apply regionStart_eq]|].
    split; [apply Q.max_compat; [reflexivity|now apply regionStart_eq]|].
    split; [apply Q.min_compat; [now apply regionExtent_eq|reflexivity]|].
    split; [apply Q.min_compat; [now apply regionExtent_eq|reflexivity]|].
    split; [apply Qmax_0_nonneg|]. split; [apply Qmax_0_nonneg|].
    split; apply Qmin_fits.
Qed.

Lemma tile_source_rectangle_witness :
  let canvas := Samples.blank 6000 4000 in
  let config := Samples.a4grid in
  (0 < width canvas /\ 0 < height canvas /\
   0 < a4WidthPx config /\ 0 < a4HeightPx config) /\
  let tileContentWidth :=
    (inject_Z (width canvas) / inject_Z (cols config))%Q in
  let tileContentHeight :=
    (inject_Z (height canvas) / inject_Z (rows config))%Q in
  let overlapSourceX :=
    Spec.overlapSource (overlapPx config) tileContentWidth
                       (a4WidthPx config) in
  let overlapSourceY :=
    Spec.overlapSource (overlapPx config) tileContentHeight
                       (a4HeightPx config) in
  exists tiles log',
    splitIntoTiles canvas config Observer [] = (inr tiles, log') /\
    (forall r c, 0 <= r < rows config -> 0 <= c < cols config ->
       exists t, In t tiles /\ row t = r /\ col t = c) /\
    forall t, In t tiles ->
      0 <= row t < rows config /\ 0 <= col t < cols config /\
      exists srcX srcY srcWidth srcHeight,
        sourceRect t = Some (srcX, srcY, srcWidth, srcHeight) /\
        (srcX == Qmax 0 (Spec.regionStart (col t) tileContentWidth
                                          overlapSourceX))%Q /\
        (srcY == Qmax 0 (Spec.regionStart (row t) tileContentHeight
                                          overlapSourceY))%Q /\
        (srcWidth == Qmin (Spec.regionExtent (col t) (cols config)
                                             tileContentWidth overlapSourceX)
                          (inject_Z (width canvas) - srcX))%Q /\
        (srcHeight == Qmin (Spec.regionExtent (row t) (rows config)
                                              tileContentHeight overlapSourceY)
                           (inject_Z (height canvas) - srcY))%Q /\
        (0 <= srcX)%Q /\ (0 <= srcY)%Q /\
        (srcX + srcWidth <= inject_Z (width canvas))%Q /\
        (srcY + srcHeight <= inject_Z (height canvas))%Q.
Proof.
  cbv zeta. split; [cbn; lia|].
  apply (tile_source_rectangle (Samples.blank 6000 4000) Samples.a4grid
           Observer []); cbn; lia.
Defined.

(** The example of the specification: on a 6000 by 4000 source the tile
    (0,0) starts at (0,0), and the left edge of the tile (0,1) lies before
    its nominal boundary 2000 by [overlapSourceX = 118 * 2000 / 2480]. *)
Example a4grid_first_row :
  (exists sx sy sw sh,
     sourceRect (tileAt (Samples.blank 6000 4000) Samples.a4grid 0 0)
     = Some (sx, sy, sw, sh) /\ (sx == 0)%Q /\ (sy == 0)%Q) /\
  exists sx sy sw sh,
    sourceRect (tileAt (Samples.blank 6000 4000) Samples.a4grid 0 1)
    = Some (sx, sy, sw, sh) /\
    (sx == 2000 - 118 * 2000 / 2480)%Q /\ (sx < 2000)%Q.
Proof.
  split.
  - do 4 eexists. split; [vm_compute; reflexivity|].
    split; vm_compute; reflexivity.
  - do 4 eexists. split; [vm_compute; reflexivity|].
    split; vm_compute; reflexivity.
Qed.

(** C7 (amended).  For every grid with a non-negative overlap and every
    produced tile: if the row index is not 0 then [hasTopOverlap] holds and
    the top edge of the source rectangle is at most
    [row * tileContentHeight], strictly less when [overlapPx > 0] and equal
    to it when [overlapPx = 0]; if the row index is 0 then [hasTopOverlap]
    is false and the top edge is exactly 0.  The same holds for columns and
    the left edge, and [hasRightOverlap], [hasBottomOverlap] are false
    exactly in the last column and the last row. *)
Theorem tile_overlap_edges canvas config cb log :
  0 < width canvas -> 0 < height canvas ->
  0 < a4WidthPx config -> 0 < a4HeightPx config ->
  0 <= overlapPx config ->
  let tileContentWidth :=
    (inject_Z (width canvas) / inject_Z (cols config))%Q in
  let tileContentHeight :=
    (inject_Z (height canvas) / inject_Z (rows config))%Q in
  exists tiles log',
    splitIntoTiles canvas config cb log = (inr tiles, log') /\
    forall t, In t tiles ->
      exists srcX srcY srcWidth srcHeight,
        sourceRect t = Some (srcX, srcY, srcWidth, srcHeight) /\
        (row t <> 0 ->
           hasTopOverlap t = true /\
           (srcY <= inject_Z (row t) * tileContentHeight)%Q /\
           (0 < overlapPx config ->
              (srcY < inject_Z (row t) * tileContentHeight)%Q) /\
           (overlapPx config = 0 ->
              (srcY == inject_Z (row t) * tileContentHeight)%Q)) /\
        (row t = 0 -> hasTopOverlap t = false /\ (srcY == 0)%Q) /\
        (col t <> 0 ->
           hasLeftOverlap t = true /\
           (srcX <= inject_Z (col t) * tileContentWidth)%Q /\
           (0 < overlapPx config ->
              (srcX < inject_Z (col t) * tileContentWidth)%Q) /\
           (overlapPx config = 0 ->
              (srcX == inject_Z (col t) * tileContentWidth)%Q)) /\
        (col t = 0 -> hasLeftOverlap t = false /\ (srcX == 0)%Q) /\
        hasRightOverlap t = negb (col t =? cols config - 1) /\
        hasBottomOverlap t = negb (row t =? rows config - 1).
Proof.
  intros Hw Hh Hpw Hph Hov tcw tch.
  assert (Hne : empty canvas = false).
  { unfold empty. apply orb_false_iff. split; apply Z.eqb_neq; lia. }
  destruct (tiles_of_grid canvas config cb log Hne)
    as (tiles & log' & Hrun & Hin & _).
  exists tiles, log'. split; [exact Hrun|].
  intros t Ht. apply Hin in Ht. destruct Ht as (r & c & Hr & Hc & ->).
  rewrite sourceRect_tileAt. cbv zeta. do 4 eexists. split; [reflexivity|].
  cbn [row col tileAt makeTile hasTopOverlap hasLeftOverlap hasRightOverlap
       hasBottomOverlap]. fold tcw tch.
  assert (Htcw : (0 < tcw)%Q) by (apply Qdiv_pos; lia).
  assert (Htch : (0 < tch)%Q) by (apply Qdiv_pos; lia).
  clearbody tcw tch.
  assert (Hovq : (0 <= inject_Z (overlapPx config))%Q)
    by now apply inject_Z_nonneg.
  assert (Hipw : (0 < / inject_Z (a4WidthPx config))%Q)
    by (apply Qinv_lt_0_compat; now apply inject_Z_pos).
  assert (Hiph : (0 < / inject_Z (a4HeightPx config))%Q)
    by (apply Qinv_lt_0_compat; now apply inject_Z_pos).
  set (ovx := (inject_Z (overlapPx config) * tcw
               / inject_Z (a4WidthPx config))%Q).
  set (ovy := (inject_Z (overlapPx config) * tch
               / inject_Z (a4HeightPx config))%Q).
  assert (Hovx : (0 <= ovx)%Q).
  { unfold ovx, Qdiv.
    apply Qmult_le_0_compat; [apply Qmult_le_0_compat|]; lra. }
  assert (Hovy : (0 <= ovy)%Q).
  { unfold ovy, Qdiv.
    apply Qmult_le_0_compat; [apply Qmult_le_0_compat|]; lra. }
  assert (Hpos : 0 < overlapPx config -> (0 < ovx)%Q /\ (0 < ovy)%Q).
  { intros H. apply inject_Z_pos in H.
    split; unfold ovx, ovy, Qdiv;
      (apply Qmult_lt_0_compat; [apply Qmult_lt_0_compat|]; lra). }
  assert (Hzero : overlapPx config = 0 -> (ovx == 0)%Q /\ (ovy == 0)%Q).
  { intros H. unfold ovx, ovy. rewrite H. change (inject_Z 0) with 0%Q.
    split; unfold Qdiv; ring. }
  destruct (start_vs_boundary r tch ovy ltac:(lia) Htch Hovy)
    as (Hr0 & Hrle & Hrlt & Hreq).
  destruct (start_vs_boundary c tcw ovx ltac:(lia) Htcw Hovx)
    as (Hc0 & Hcle & Hclt & Hceq).
  split; [|split; [|split; [|split; [|split]]]].
  - intros Hrn. split; [apply Z.ltb_lt; lia|]. split; [exact Hrle|].
    split.
    + intros H. apply Hrlt; [lia|]. now apply Hpos.
    + intros H. apply Hreq. now apply Hzero.
  - intros ->. split; [reflexivity|]. now apply Hr0.
  - intros Hcn. split; [apply Z.ltb_lt; lia|]. split; [exact Hcle|].
    split.
    + intros H. apply Hclt; [lia|]. now apply Hpos.
    + intros H. apply Hceq. now apply Hzero.
  - intros ->. split; [reflexivity|]. now apply Hc0.
  - destruct (Z.ltb_spec c (cols config - 1)), (Z.eqb_spec c (cols config - 1));
      try reflexivity; lia.
  - destruct (Z.ltb_spec r (rows config - 1)), (Z.eqb_spec r (rows config - 1));
      try reflexivity; lia.
Qed.

Lemma tile_overlap_edges_witness :
  let canvas := Samples.blank 6000 4000 in
  let config := Samples.a4grid in
  (0 < width canvas /\ 0 < height canvas /\
   0 < a4WidthPx config /\ 0 < a4HeightPx config /\
   0 <= overlapPx config) /\
  let tileContentWidth :=
    (inject_Z (width canvas) / inject_Z (cols config))%Q in
  let tileContentHeight :=
    (inject_Z (height canvas) / inject_Z (rows config))%Q in
  exists tiles log',
    splitIntoTiles canvas config Observer [] = (inr tiles, log') /\
    forall t, In t tiles ->
      exists srcX srcY srcWidth srcHeight,
        sourceRect t = Some (srcX, srcY, srcWidth, srcHeight) /\
        (row t <> 0 ->
           hasTopOverlap t = true /\
           (srcY <= inject_Z (row t) * tileContentHeight)%Q /\
           (0 < overlapPx config ->
              (srcY < inject_Z (row t) * tileContentHeight)%Q) /\
           (overlapPx config = 0 ->
              (srcY == inject_Z (row t) * tileContentHeight)%Q)) /\
        (row t = 0 -> hasTopOverlap t = false /\ (srcY == 0)%Q) /\
        (col t <> 0 ->
           hasLeftOverlap t = true /\
           (srcX <= inject_Z (col t) * tileContentWidth)%Q /\
           (0 < overlapPx config ->
              (srcX < inject_Z (col t) * tileContentWidth)%Q) /\
           (overlapPx config = 0 ->
              (srcX == inject_Z (col t) * tileContentWidth)%Q)) /\
        (col t = 0 -> hasLeftOverlap t = false /\ (srcX == 0)%Q) /\
        hasRightOverlap t = negb (col t =? cols config - 1) /\
        hasBottomOverlap t = negb (row t =? rows config - 1).
Proof.
  cbv zeta. split; [cbn; lia|].
  apply (tile_overlap_edges (Samples.blank 6000 4000) Samples.a4grid
           Observer []); cbn; lia.
Defined.

(** C7 as stated fails when the grid has no overlap, which the grid
    configuration allows: with [overlapPx = 0] and two rows, the tile of
    row 1 has [hasTopOverlap = true] and its top edge is exactly
    [1 * tileContentHeight], not strictly less. *)
Lemma zero_overlap_top_edge_on_boundary :
  let canvas := Samples.blank 2480 7016 in
  let config := mkConfig 1 2 2480 3508 0 false in
  exists t0 t1 log' srcX srcY srcWidth srcHeight,
    splitIntoTiles canvas config NoCallback [] = (inr [t0; t1], log') /\
    row t1 = 1 /\ hasTopOverlap t1 = true /\
    sourceRect t1 = Some (srcX, srcY, srcWidth, srcHeight) /\
    ~ (srcY < inject_Z (row t1)
              * (inject_Z (height canvas) / inject_Z (rows config)))%Q.
Proof.
  cbv zeta. do 7 eexists.
  split; [vm_compute; reflexivity|].
  split; [reflexivity|]. split; [reflexivity|].
  split; [vm_compute; reflexivity|].
  vm_compute. discriminate.
Qed.

End TilerFacts.


(** ** The Lanczos pass: its loops *)

Module PassFacts.

Import JS Eff Eff.Notations Canvas ImageProcessor Basics.
Local Open Scope Z_scope.

Lemma fold_left_inv {A B : Type} (P : A -> Prop) (f : A -> B -> A)
    (l : list B) (a : A) :
  P a -> (forall a b, P a -> P (f a b)) -> P (fold_left f l a).
Proof.
  intros Ha Hf. revert a Ha. induction l as [|b l IH]; intros a Ha; cbn; auto.
Qed.

Section Pass.

Variables (srcData : list Z) (srcWidth srcHeight : Z) (scaleX scaleY : R).
Variable targetWidth : Z.

Let put := putPixel srcData srcWidth srcHeight scaleX scaleY targetWidth.
Let scan := scanRows srcData srcWidth srcHeight scaleX scaleY targetWidth.

Lemma length_putPixel y d x : length (put y d x) = length d.
Proof. unfold put, putPixel. now rewrite !length_store. Qed.

Lemma Forall_putPixel y d x : Forall byte d -> Forall byte (put y d x).
Proof. intros H. unfold put, putPixel. now repeat apply Forall_store. Qed.

Lemma length_scanRows a b d : length (scan a b d) = length d.
Proof.
  unfold scan, scanRows.
  apply (fold_left_inv (fun d' => length d' = length d)); [reflexivity|].
  intros d1 y H1.
  apply (fold_left_inv (fun d' => length d' = length d)); [exact H1|].
  intros d2 x H2. fold (put y d2 x). now rewrite length_putPixel.
Qed.

Lemma Forall_scanRows a b d : Forall byte d -> Forall byte (scan a b d).
Proof.
  intros H. unfold scan, scanRows.
  apply (fold_left_inv (Forall byte)); [exact H|].
  intros d1 y H1. apply (fold_left_inv (Forall byte)); [exact H1|].
  intros d2 x H2. now apply Forall_putPixel.
Qed.

Lemma scanRows_app a b c d :
  a <= b -> b <= c -> scan a c d = scan b c (scan a b d).
Proof.
  intros Hab Hbc. unfold scan, scanRows.
  rewrite <- (zrange_app a b c) by assumption. apply fold_left_app.
Qed.

Lemma scanRows_empty a b d : b <= a -> scan a b d = d.
Proof.
  intros H. unfold scan, scanRows. now rewrite (zrange_nil a b) by lia.
Qed.

End Pass.

(** *** The chunk loop *)

Lemma progress_mono (a b t : Z) :
  0 < t -> a <= b ->
  (10 + 80 * inject_Z a / inject_Z t <= 10 + 80 * inject_Z b / inject_Z t)%Q.
Proof.
  intros Ht Hab.
  assert (Hi : (0 < / inject_Z t)%Q).
  { apply Qinv_lt_0_compat. rewrite Zlt_Qlt in Ht. exact Ht. }
  rewrite Zle_Qle in Hab. unfold Qdiv.
  assert (H : (0 <= (inject_Z b - inject_Z a) * / inject_Z t)%Q).
  { apply Qmult_le_0_compat; lra. }
  lra.
Qed.

Lemma progress_full (t : Z) :
  0 < t -> (10 + 80 * inject_Z t / inject_Z t == 90)%Q.
Proof.
  intros Ht. rewrite Zlt_Qlt in Ht. change (inject_Z 0) with 0%Q in Ht.
  field. lra.
Qed.

Lemma progress_none (t : Z) : (10 + 80 * inject_Z 0 / inject_Z t == 10)%Q.
Proof. change (inject_Z 0) with 0%Q. unfold Qdiv. ring. Qed.

Lemma chunkSize_pos (t : Z) : 0 < t -> 1 <= Math_ceil (inject_Z t / 10)%Q.
Proof.
  intros Ht. unfold Math_ceil.
  assert (H : (0 < inject_Z t / 10)%Q).
  { rewrite Zlt_Qlt in Ht. change (inject_Z 0) with 0%Q in Ht.
    apply Qlt_shift_div_l; lra. }
  pose proof (Qle_ceiling (inject_Z t / 10)) as Hc.
  assert (Hz : (0 < inject_Z (Qceiling (inject_Z t / 10)))%Q) by lra.
  change 0%Q with (inject_Z 0) in Hz. rewrite <- Zlt_Qlt in Hz. lia.
Qed.

Lemma chunkLoop_run srcData srcWidth srcHeight scaleX scaleY
    targetWidth targetHeight chunkSize cb :
  0 < targetHeight -> 1 <= chunkSize ->
  forall fuel startY destData log,
    0 <= startY -> targetHeight - startY <= Z.of_nat fuel ->
    exists calls,
      chunkLoop fuel srcData srcWidth srcHeight scaleX scaleY targetWidth
                targetHeight chunkSize cb startY destData log
      = (inr (scanRows srcData srcWidth srcHeight scaleX scaleY targetWidth
                       startY targetHeight destData), log ++ calls) /\
      (cb = NoCallback -> calls = []) /\
      rising (10 + 80 * inject_Z (Z.min startY targetHeight)
                   / inject_Z targetHeight)%Q 90 calls.
Proof.
  intros Hth Hcs fuel.
  induction fuel as [|fuel IH]; intros startY d log Hs Hfuel.
  - exists []. cbn [chunkLoop].
    destruct (Z.ltb_spec startY targetHeight) as [H|H]; [lia|].
    rewrite scanRows_empty by lia. rewrite app_nil_r.
    split; [reflexivity|]. split; [reflexivity|]. cbn.
    rewrite Z.min_r by lia. now rewrite progress_full.
  - cbn [chunkLoop].
    destruct (Z.ltb_spec startY targetHeight) as [Hlt|Hge].
    + set (endY := Z.min (startY + chunkSize) targetHeight).
      set (d' := scanRows _ _ _ _ _ _ startY endY d).
      destruct (IH (startY + chunkSize) d'
                   (match cb with
                    | Observer =>
                        log ++ [(10 + 80 * inject_Z endY
                                     / inject_Z targetHeight)%Q]
                    | NoCallback => log
                    end)
                   ltac:(lia) ltac:(lia)) as (calls & Hrun & Hno & Hrise).
      unfold bind at 1.
      assert (Hscan :
                scanRows srcData srcWidth srcHeight scaleX scaleY targetWidth
                         (startY + chunkSize) targetHeight d'
                = scanRows srcData srcWidth srcHeight scaleX scaleY
                           targetWidth startY targetHeight d).
      { subst d'. destruct (Z.le_ge_cases (startY + chunkSize) targetHeight).
        - subst endY. rewrite Z.min_l by lia.
          symmetry. apply scanRows_app; lia.
        - subst endY. rewrite Z.min_r by lia.
          now rewrite scanRows_empty by lia. }
      destruct cb; cbn [notify].
      * exists calls. rewrite Hrun, Hscan.
        split; [reflexivity|]. split; [exact Hno|].
        rewrite (Hno eq_refl). cbn. rewrite Z.min_l by lia.
        rewrite <- (progress_full targetHeight Hth).
        apply progress_mono; lia.
      * exists ((10 + 80 * inject_Z endY / inject_Z targetHeight)%Q :: calls).
        rewrite Hrun, Hscan, <- app_assoc. cbn [app].
        split; [reflexivity|]. split; [discriminate|].
        cbn [rising]. split.
        -- apply progress_mono; [lia|]. subst endY. lia.
        -- exact Hrise.
    + exists []. rewrite scanRows_empty by lia. rewrite app_nil_r.
      split; [reflexivity|]. split; [reflexivity|]. cbn.
      rewrite Z.min_r by lia. now rewrite progress_full.
Qed.

(** A pass over a non-empty source to a non-empty target returns the
    scanned pixels; without a callback it reports nothing, with one its
    reports rise from 10 to 90. *)
Lemma lanczosResample_run srcCanvas targetWidth targetHeight cb log :
  empty srcCanvas = false -> 0 < targetWidth -> 0 < targetHeight ->
  exists calls,
    lanczosResample srcCanvas targetWidth targetHeight cb log
    = (inr (mkCanvas targetWidth targetHeight
                     (resampled srcCanvas targetWidth targetHeight)),
       log ++ calls) /\
    (cb = NoCallback -> calls = []) /\
    rising 10 90 calls.
Proof.
  intros Hne Hw Hh. unfold lanczosResample, getImageData, createImageData.
  rewrite Hne. unfold bind at 1. unfold ret at 1.
  replace ((targetWidth =? 0) || (targetHeight =? 0))%bool with false.
  2:{ symmetry. apply orb_false_iff. split; apply Z.eqb_neq; lia. }
  unfold bind at 1. unfold ret at 1. unfold bind at 1.
  destruct (chunkLoop_run (data srcCanvas) (width srcCanvas)
              (height srcCanvas)
              (IZR (width srcCanvas) / IZR targetWidth)%R
              (IZR (height srcCanvas) / IZR targetHeight)%R
              targetWidth targetHeight
              (Math_ceil (inject_Z targetHeight / 10)%Q) cb Hh
              (chunkSize_pos targetHeight Hh)
              (Z.to_nat targetHeight) 0
              (repeat 0 (Z.to_nat (4 * targetWidth * targetHeight))) log
              ltac:(lia) ltac:(lia)) as (calls & Hrun & Hno & Hrise).
  exists calls. rewrite Hrun. split; [reflexivity|]. split; [exact Hno|].
  rewrite Z.min_l in Hrise by lia.
  eapply rising_weaken; [| |exact Hrise].
  - rewrite progress_none. lra.
  - lra.
Qed.

Lemma resampled_wf srcCanvas targetWidth targetHeight :
  0 <= targetWidth -> 0 <= targetHeight ->
  wf (mkCanvas targetWidth targetHeight
               (resampled srcCanvas targetWidth targetHeight)).
Proof.
  intros Hw Hh. unfold wf. cbn [width height data].
  split; [exact Hw|]. split; [exact Hh|]. unfold resampled. split.
  - rewrite length_scanRows, repeat_length. nia.
  - apply Forall_scanRows. apply Forall_forall. intros v Hv.
    apply repeat_spec in Hv. subst v. unfold byte. lia.
Qed.

End PassFacts.

(** ** Scales and sizes *)

Module ScaleFacts.

Import JS Eff Eff.Notations Canvas ImageProcessor Basics.
Local Open Scope Z_scope.

Lemma Qfloor_unique (x : Q) (z : Z) :
  (inject_Z z <= x)%Q -> (x < inject_Z (z + 1))%Q -> Qfloor x = z.
Proof.
  intros H1 H2.
  pose proof (Qfloor_le x) as H3. pose proof (Qlt_floor x) as H4.
  assert (H5 : (inject_Z z < inject_Z (Qfloor x + 1))%Q) by lra.
  assert (H6 : (inject_Z (Qfloor x) < inject_Z (z + 1))%Q) by lra.
  rewrite <- Zlt_Qlt in H5, H6. lia.
Qed.

Lemma Math_round_comp (x y : Q) : (x == y)%Q -> Math_round x = Math_round y.
Proof. intros H. unfold Math_round. now rewrite H. Qed.

Lemma Math_round_Z (z : Z) : Math_round (inject_Z z) = z.
Proof.
  unfold Math_round. apply Qfloor_unique.
  - lra.
  - rewrite inject_Z_plus. change (inject_Z 1) with 1%Q. lra.
Qed.

Lemma Math_round_mono (x y : Q) :
  (x <= y)%Q -> Math_round x <= Math_round y.
Proof. intros H. unfold Math_round. apply Qfloor_resp_le. lra. Qed.

Lemma Math_round_ge_1 (x : Q) : (1 <= x)%Q -> 1 <= Math_round x.
Proof.
  intros H. rewrite <- (Math_round_Z 1). apply Math_round_mono. exact H.
Qed.

(** *** The scale after [k] passes *)

Lemma inject_Z_pow2_pos (k : Z) : 0 <= k -> (1 <= inject_Z (2 ^ k))%Q.
Proof.
  intros Hk. change 1%Q with (inject_Z 1). rewrite <- Zle_Qle.
  pose proof (Z.pow_pos_nonneg 2 k). lia.
Qed.

Lemma passScale_min (scale : Q) (k : nat) :
  (1 <= scale)%Q ->
  (Spec.passScale k scale == Qmin (inject_Z (2 ^ Z.of_nat k)) scale)%Q.
Proof.
  intros Hs. induction k as [|k IH].
  - cbn. symmetry. apply Q.min_l. exact Hs.
  - cbn [Spec.passScale]. rewrite IH.
    replace (2 ^ Z.of_nat (S k)) with (2 ^ Z.of_nat k * 2).
    2:{ rewrite Nat2Z.inj_succ, Z.pow_succ_r by lia. lia. }
    rewrite inject_Z_mult. change (inject_Z 2) with 2%Q.
    pose proof (inject_Z_pow2_pos (Z.of_nat k) ltac:(lia)) as Hp.
    set (p := inject_Z (2 ^ Z.of_nat k)) in *.
    destruct (Qlt_le_dec scale p) as [Hlt|Hle].
    + rewrite (Q.min_r p scale) by lra.
      rewrite (Q.min_r (scale * 2) scale) by lra.
      rewrite (Q.min_r (p * 2) scale) by lra. reflexivity.
    + rewrite (Q.min_l p scale) by lra. reflexivity.
Qed.

Lemma passScale_ge_1 (scale : Q) (k : nat) :
  (1 <= scale)%Q -> (1 <= Spec.passScale k scale)%Q.
Proof.
  intros Hs. rewrite passScale_min by exact Hs.
  pose proof (inject_Z_pow2_pos (Z.of_nat k) ltac:(lia)).
  apply Q.min_glb; assumption.
Qed.

Lemma pow2_lt_scale (scale : Q) (k : Z) :
  (inject_Z (2 ^ k) < scale)%Q <-> 2 ^ k < Qceiling scale.
Proof.
  split.
  - intros H. pose proof (Qle_ceiling scale).
    rewrite Zlt_Qlt. lra.
  - intros H. pose proof (Qceiling_lt scale) as Hc.
    assert (H' : 2 ^ k <= Qceiling scale - 1) by lia.
    rewrite Zle_Qle in H'. lra.
Qed.

(** The loop test [currentScale < targetScale] after [k] passes. *)
Lemma passScale_lt (scale : Q) (k : nat) :
  (1 < scale)%Q ->
  Qltb (Spec.passScale k scale) scale = true
  <-> (k < Z.to_nat (Math_ceil_log2 scale))%nat.
Proof.
  intros Hs. unfold Qltb, Math_ceil_log2.
  rewrite negb_true_iff, <- not_true_iff_false, Qle_bool_iff.
  rewrite passScale_min by lra.
  assert (Hc : 0 < Qceiling scale).
  { pose proof (Qle_ceiling scale) as H.
    assert (H' : (inject_Z 0 < inject_Z (Qceiling scale))%Q)
      by (change (inject_Z 0) with 0%Q; lra).
    now rewrite <- Zlt_Qlt in H'. }
  pose proof (Z.log2_up_nonneg (Qceiling scale)) as Hn.
  pose proof (Z.log2_up_lt_pow2 (Qceiling scale) (Z.of_nat k) Hc) as Hl.
  pose proof (pow2_lt_scale scale (Z.of_nat k)) as Hp.
  split.
  - intros H.
    assert (Hlt : (inject_Z (2 ^ Z.of_nat k) < scale)%Q).
    { destruct (Qlt_le_dec (inject_Z (2 ^ Z.of_nat k)) scale) as [H1|H1];
        [exact H1|].
      exfalso. apply H. rewrite Q.min_r by exact H1. lra. }
    apply Hp, Hl in Hlt. lia.
  - intros H H'.
    assert (Hlt : (inject_Z (2 ^ Z.of_nat k) < scale)%Q).
    { apply Hp, Hl. lia. }
    rewrite Q.min_l in H' by lra. lra.
Qed.

(** [Math_ceil_log2 scale] is [ceil(log2(scale))]. *)
Lemma ceil_log2_bracket (scale : Q) :
  (1 < scale)%Q ->
  let n := Math_ceil_log2 scale in
  1 <= n /\
  (inject_Z (2 ^ (n - 1)) < scale)%Q /\ (scale <= inject_Z (2 ^ n))%Q.
Proof.
  intros Hs n.
  assert (Hc : 1 < Qceiling scale).
  { pose proof (Qle_ceiling scale) as H.
    assert (H' : (inject_Z 1 < inject_Z (Qceiling scale))%Q)
      by (change (inject_Z 1) with 1%Q; lra).
    now rewrite <- Zlt_Qlt in H'. }
  pose proof (Z.log2_up_pos (Qceiling scale) Hc) as Hn. fold (Math_ceil_log2 scale) in Hn.
  fold n in Hn.
  split; [lia|]. split.
  - apply pow2_lt_scale.
    apply (Z.log2_up_lt_pow2 (Qceiling scale) (n - 1)); [lia|].
    unfold n, Math_ceil_log2. lia.
  - destruct (Qlt_le_dec (inject_Z (2 ^ n)) scale) as [H|H]; [|exact H].
    exfalso. apply pow2_lt_scale in H.
    apply (Z.log2_up_lt_pow2 (Qceiling scale) n) in H; [|lia].
    unfold n, Math_ceil_log2 in H. lia.
Qed.

Lemma ceil_log2_le_ceil (scale : Q) :
  (1 < scale)%Q ->
  (Z.to_nat (Math_ceil_log2 scale) <= Z.to_nat (Math_ceil scale))%nat.
Proof.
  intros Hs. unfold Math_ceil_log2, Math_ceil.
  assert (Hc : 0 < Qceiling scale).
  { pose proof (Qle_ceiling scale) as H.
    assert (H' : (inject_Z 0 < inject_Z (Qceiling scale))%Q)
      by (change (inject_Z 0) with 0%Q; lra).
    now rewrite <- Zlt_Qlt in H'. }
  pose proof (Z.log2_up_lt_lin (Qceiling scale) Hc). lia.
Qed.

(** *** The staged loop is the fold of the passes *)

Lemma stagedLoop_fold srcCanvas scale total cb :
  (1 < scale)%Q ->
  forall m fuel k c log,
    (m <= fuel)%nat -> (k + m)%nat = Z.to_nat (Math_ceil_log2 scale) ->
    stagedLoop fuel srcCanvas scale total cb c (Spec.passScale k scale)
               (Z.of_nat k) log
    = Spec.foldPasses
        (map (Spec.passSize (width srcCanvas) (height srcCanvas) scale)
             (seq (S k) m))
        (Z.of_nat k) total cb c log.
Proof.
  intros Hs m. induction m as [|m IH]; intros fuel k c log Hfuel Hk.
  - assert (Hcond : Qltb (Spec.passScale k scale) scale = false).
    { apply not_true_iff_false. rewrite passScale_lt by exact Hs. lia. }
    destruct fuel; cbn [stagedLoop seq map Spec.foldPasses];
      now rewrite Hcond.
  - assert (Hcond : Qltb (Spec.passScale k scale) scale = true).
    { apply passScale_lt; [exact Hs|lia]. }
    destruct fuel as [|fuel]; [lia|].
    cbn [stagedLoop seq map Spec.foldPasses]. rewrite Hcond.
    unfold Spec.passSize at 1. cbn [Spec.passScale].
    apply bind_ext. intros c' log1. apply bind_ext. intros _ log2.
    replace (Z.of_nat k + 1) with (Z.of_nat (S k)) by lia.
    apply (IH fuel (S k) c' log2); lia.
Qed.


(** The staged branch: the loop is the fold of the passes of the plan. *)
Lemma upscaleLanczos_staged srcCanvas targetWidth targetHeight cb log :
  let scale := (inject_Z targetWidth / inject_Z (width srcCanvas))%Q in
  (2 < scale)%Q ->
  upscaleLanczos srcCanvas targetWidth targetHeight cb log
  = Spec.foldPasses
      (Spec.stagedPlan (width srcCanvas) (height srcCanvas) scale)
      0 (Math_ceil_log2 scale) cb srcCanvas log.
Proof.
  intros scale H. unfold upscaleLanczos. fold scale.
  replace (Qle_bool scale 2) with false.
  2:{ symmetry. apply not_true_iff_false. rewrite Qle_bool_iff. lra. }
  apply (stagedLoop_fold srcCanvas scale (Math_ceil_log2 scale) cb
           ltac:(lra) (Z.to_nat (Math_ceil_log2 scale))
           (Z.to_nat (Math_ceil scale)) 0%nat srcCanvas log).
  - apply ceil_log2_le_ceil. lra.
  - reflexivity.
Qed.

Lemma stagedPlan_length srcWidth srcHeight scale :
  (1 < scale)%Q ->
  Z.of_nat (length (Spec.stagedPlan srcWidth srcHeight scale))
  = Math_ceil_log2 scale.
Proof.
  intros H. destruct (ceil_log2_bracket scale H) as (Hn & _).
  unfold Spec.stagedPlan. rewrite length_map, length_seq. lia.
Qed.




(** The plan of the witness: 1x1 to width 5 takes three passes, to 2x2,
    4x4 and 5x5. *)
Example plan_1_to_5 :
  Math_ceil_log2 (5 / 1) = 3 /\
  Spec.stagedPlan 1 1 (5 / 1) = [(2, 2); (4, 4); (5, 5)].
Proof. split; vm_compute; reflexivity. Qed.

End ScaleFacts.

(** ** Runs of the strategies *)

Module RunFacts.

Import JS Eff Eff.Notations Canvas ImageProcessor Basics PassFacts ScaleFacts.
Local Open Scope Z_scope.

Lemma nonempty_of_size (c : canvas) :
  1 <= width c -> 1 <= height c -> empty c = false.
Proof.
  intros Hw Hh. unfold empty. apply orb_false_iff.
  split; apply Z.eqb_neq; lia.
Qed.

Lemma progress_le_90 (k t : Z) :
  0 < t -> k <= t -> (10 + 80 * inject_Z k / inject_Z t <= 90)%Q.
Proof.
  intros Ht Hk. rewrite <- (progress_full t Ht). now apply progress_mono.
Qed.

(** *** The staged passes *)

Lemma foldPasses_run plan :
  forall k total cb c log,
    empty c = false -> Forall positive plan ->
    0 <= k -> k + Z.of_nat (length plan) <= total -> 0 < total ->
    exists c' calls,
      Spec.foldPasses plan k total cb c log = (inr c', log ++ calls) /\
      (plan = [] -> c' = c) /\
      (plan <> [] ->
         width c' = fst (last plan (0, 0)) /\
         height c' = snd (last plan (0, 0)) /\ wf c') /\
      (cb = NoCallback -> calls = []) /\
      rising (10 + 80 * inject_Z k / inject_Z total)%Q 90 calls.
Proof.
  induction plan as [|[w h] plan IH];
    intros k total cb c log Hne Hpos Hk Hlen Htot.
  - exists c, []. cbn. rewrite app_nil_r. repeat split; try congruence.
    apply progress_le_90; [exact Htot|cbn in Hlen; lia].
  - inversion Hpos as [|? ? [Hw Hh] Hpos']; subst. cbn in Hw, Hh.
    cbn [length] in Hlen. cbn [Spec.foldPasses].
    destruct (lanczosResample_run c w h NoCallback log Hne
                ltac:(lia) ltac:(lia)) as (calls0 & Hrun & Hno & _).
    rewrite (Hno eq_refl), app_nil_r in Hrun.
    unfold bind at 1. rewrite Hrun. unfold bind at 1.
    set (c1 := mkCanvas w h (resampled c w h)).
    set (v := (10 + 80 * inject_Z (k + 1) / inject_Z total)%Q).
    destruct (IH (k + 1) total cb c1
                 (match cb with Observer => log ++ [v] | NoCallback => log end)
                 ltac:(apply nonempty_of_size; cbn; lia) Hpos'
                 ltac:(lia) ltac:(lia) Htot)
      as (c' & calls & Hrun' & Hnil & Hlast & Hno' & Hrise).
    assert (Hwf1 : wf c1) by (apply resampled_wf; lia).
    assert (Hshape :
              width c' = fst (last ((w, h) :: plan) (0, 0)) /\
              height c' = snd (last ((w, h) :: plan) (0, 0)) /\ wf c').
    { destruct plan as [|p plan'].
      - rewrite (Hnil eq_refl). cbn. auto.
      - change (last ((w, h) :: p :: plan') (0, 0))
          with (last (p :: plan') (0, 0)).
        apply Hlast. discriminate. }
    destruct cb; cbn [notify].
    + exists c', calls. rewrite Hrun'.
      split; [reflexivity|]. split; [discriminate|].
      split; [intros _; exact Hshape|]. split; [exact Hno'|].
      rewrite (Hno' eq_refl). cbn. apply progress_le_90; [exact Htot|lia].
    + exists c', (v :: calls). rewrite Hrun', <- app_assoc.
      split; [reflexivity|]. split; [discriminate|].
      split; [intros _; exact Hshape|]. split; [discriminate|].
      cbn [rising]. split; [apply progress_mono; lia|exact Hrise].
Qed.

Lemma stagedPlan_positive srcWidth srcHeight scale :
  1 <= srcWidth -> 1 <= srcHeight -> (1 <= scale)%Q ->
  Forall positive (Spec.stagedPlan srcWidth srcHeight scale).
Proof.
  intros Hw Hh Hs. unfold Spec.stagedPlan. apply Forall_forall.
  intros wh Hin. apply in_map_iff in Hin. destruct Hin as (k & <- & _).
  pose proof (passScale_ge_1 scale k Hs) as Hk.
  rewrite Zle_Qle in Hw, Hh. change (inject_Z 1) with 1%Q in Hw, Hh.
  unfold positive, Spec.passSize. cbn [fst snd].
  split; apply Math_round_ge_1; nra.
Qed.

Lemma stagedPlan_last srcWidth srcHeight scale :
  (2 < scale)%Q ->
  last (Spec.stagedPlan srcWidth srcHeight scale) (0, 0)
  = (Math_round (inject_Z srcWidth * scale),
     Math_round (inject_Z srcHeight * scale)).
Proof.
  intros Hs.
  destruct (ceil_log2_bracket scale ltac:(lra)) as (Hn & _ & Hhi).
  unfold Spec.stagedPlan.
  set (n := Math_ceil_log2 scale) in *.
  replace (Z.to_nat n) with (S (Z.to_nat (n - 1))) by lia.
  rewrite seq_S, map_app. cbn [map]. rewrite last_last.
  assert (Hlast : (Spec.passScale (1 + Z.to_nat (n - 1)) scale == scale)%Q).
  { rewrite passScale_min by lra.
    replace (Z.of_nat (1 + Z.to_nat (n - 1))) with n by lia.
    apply Q.min_r. exact Hhi. }
  unfold Spec.passSize. f_equal; apply Math_round_comp; now rewrite Hlast.
Qed.

Lemma scale_back (n d : Z) :
  0 < d -> (inject_Z d * (inject_Z n / inject_Z d) == inject_Z n)%Q.
Proof.
  intros Hd. rewrite Zlt_Qlt in Hd. change (inject_Z 0) with 0%Q in Hd.
  field. lra.
Qed.

(** The lanczos strategy on a non-empty source and a non-empty target:
    it returns, the width is the requested one, and the height is the
    requested one in the direct branch but [round(sourceHeight * scale)]
    in the staged branch. *)
Lemma upscaleLanczos_run srcCanvas targetWidth targetHeight cb log :
  1 <= width srcCanvas -> 1 <= height srcCanvas ->
  1 <= targetWidth -> 1 <= targetHeight ->
  let scale := (inject_Z targetWidth / inject_Z (width srcCanvas))%Q in
  exists c calls,
    upscaleLanczos srcCanvas targetWidth targetHeight cb log
    = (inr c, log ++ calls) /\
    wf c /\ width c = targetWidth /\
    height c = (if Qle_bool scale 2 then targetHeight
                else Math_round (inject_Z (height srcCanvas) * scale)) /\
    rising 10 90 calls.
Proof.
  intros Hw Hh Htw Hth scale.
  assert (Hne : empty srcCanvas = false) by now apply nonempty_of_size.
  destruct (Qle_bool scale 2) eqn:Hs.
  - apply Qle_bool_iff in Hs.
    destruct (lanczosResample_run srcCanvas targetWidth targetHeight cb log
                Hne ltac:(lia) ltac:(lia)) as (calls & Hrun & _ & Hrise).
    unfold upscaleLanczos. fold scale.
    apply Qle_bool_iff in Hs. rewrite Hs.
    eexists; exists calls. split; [exact Hrun|].
    split; [apply resampled_wf; lia|]. auto.
  - assert (Hs' : (2 < scale)%Q).
    { apply not_true_iff_false in Hs. rewrite Qle_bool_iff in Hs.
      apply Qnot_le_lt. exact Hs. }
    pose proof (upscaleLanczos_staged srcCanvas targetWidth targetHeight
                  cb log Hs') as Heq.
    pose proof (stagedPlan_length (width srcCanvas) (height srcCanvas) scale
                  ltac:(lra)) as Hlen.
    fold scale in Heq.
    set (plan := Spec.stagedPlan (width srcCanvas) (height srcCanvas) scale)
      in *.
    destruct (ceil_log2_bracket scale ltac:(lra)) as (Hn & _).
    set (n := Math_ceil_log2 scale) in *.
    destruct (foldPasses_run plan 0 n cb srcCanvas log Hne
                (stagedPlan_positive _ _ scale Hw Hh ltac:(lra))
                ltac:(lia) ltac:(lia) ltac:(lia))
      as (c & calls & Hrun & _ & Hlast & _ & Hrise).
    assert (Hnn : plan <> []).
    { intros E. rewrite E in Hlen. cbn in Hlen. lia. }
    destruct (Hlast Hnn) as (Hcw & Hch & Hwf).
    unfold plan in Hcw, Hch. rewrite stagedPlan_last in Hcw, Hch by exact Hs'.
    cbn [fst snd] in Hcw, Hch.
    exists c, calls. rewrite Heq. split; [exact Hrun|]. split; [exact Hwf|].
    split.
    + rewrite Hcw. unfold scale.
      rewrite (Math_round_comp _ (inject_Z targetWidth))
        by (apply scale_back; lia).
      apply Math_round_Z.
    + split; [exact Hch|].
      eapply rising_weaken; [| |exact Hrise].
      * rewrite progress_none. lra.
      * lra.
Qed.

(** *** The strategies that draw with the browser's filter *)

Section Filter.

Variable filter : canvas -> Z -> Z -> Z -> Z.







(** *** upscale *)


End Filter.

(** *** Requests with the aspect ratio of the source *)


(** *** The size of the output *)







(** *** Requests that fit to an empty bitmap *)






Section Reduction.

Variable filter : canvas -> Z -> Z -> Z -> Z.


End Reduction.

(** *** Progress *)





(** The one kind of run that does not return: a 3x1 image asked for 1x1
    with the lanczos strategy fits to 1x0, and [createImageData] raises
    after the calls 0 and 10. *)
Example lanczos_empty_output :
  upscale Samples.nearest
          (Some (mkImage 3 1 [1; 2; 3; 255; 4; 5; 6; 255; 7; 8; 9; 255]))
          1 1 "lanczos" Observer []
  = (inl IndexSizeError, [0; 10]%Q).
Proof. vm_compute. reflexivity. Qed.

(** The calls of the bicubic strategy from 1x1 to 5x5 (three steps). *)
Example bicubic_progress :
  exists c,
    upscale Samples.nearest (Some (mkImage 1 1 [10; 20; 30; 255])) 5 5
            "bicubic" Observer []
    = (inr c, [0; 10; 10 + 80 * 1 / 3; 10 + 80 * 2 / 3; 10 + 80 * 3 / 3;
               100]%Q).
Proof. eexists. vm_compute. reflexivity. Qed.

(** *** The staged branch and the requested height *)



(** A 1x1 source asked for 3x5 on the staged branch comes back 3x3. *)
Example staged_1x1_to_3x5 :
  exists c calls,
    upscaleLanczos (mkCanvas 1 1 [10; 20; 30; 255]) 3 5 NoCallback []
    = (inr c, calls) /\
    width c = 3 /\ height c = 3.
Proof.
  destruct (upscaleLanczos_run (mkCanvas 1 1 [10; 20; 30; 255]) 3 5
              NoCallback [] ltac:(cbn; lia) ltac:(cbn; lia)
              ltac:(lia) ltac:(lia))
    as (c & calls & Hrun & _ & Hcw & Hch & _).
  exists c, calls. split; [exact Hrun|]. split; [exact Hcw|].
  rewrite Hch. reflexivity.
Qed.

End RunFacts.

(** ** The Lanczos kernel and the pixels of a pass *)

Module KernelFacts.

Import JS Eff Canvas ImageProcessor Basics PassFacts.
Local Open Scope R_scope.

Lemma PI_gt_3 : 3 < PI.
Proof. pose proof PI2_3_2. lra. Qed.

(** The formula of the kernel away from 0 and inside the support. *)
Lemma lanczos_inside (x : R) :
  x <> 0 -> -3 <= x <= 3 ->
  lanczos x 3 = 3 * sin (PI * x) * sin (PI * x / 3) / (PI * x * (PI * x)).
Proof.
  intros H0 [H1 H2]. unfold lanczos.
  destruct (Req_dec_T x 0) as [E|_]; [contradiction|].
  destruct (Rlt_dec x (Ropp 3)) as [E|_]; [lra|].
  destruct (Rlt_dec 3 x) as [E|_]; [lra|]. reflexivity.
Qed.

Lemma lanczos_0 : lanczos 0 3 = 1.
Proof. unfold lanczos. destruct (Req_dec_T 0 0); [reflexivity|lra]. Qed.

Lemma lanczos_outside (x : R) : x < -3 \/ 3 < x -> lanczos x 3 = 0.
Proof.
  intros H. unfold lanczos.
  destruct (Req_dec_T x 0) as [E|_]; [lra|].
  destruct (Rlt_dec x (Ropp 3)) as [E|N1]; [reflexivity|].
  destruct (Rlt_dec 3 x) as [E|N2]; [reflexivity|]. lra.
Qed.

(** On a non-zero integer the kernel vanishes: [sin (k * PI) = 0]. *)
Lemma lanczos_integer (k : Z) : k <> 0%Z -> lanczos (IZR k) 3 = 0.
Proof.
  intros Hk.
  assert (Hk' : IZR k <> 0) by (now apply not_0_IZR).
  destruct (Rlt_dec (IZR k) (-3)) as [H1|H1];
    [apply lanczos_outside; now left|].
  destruct (Rlt_dec 3 (IZR k)) as [H2|H2];
    [apply lanczos_outside; now right|].
  rewrite lanczos_inside by lra.
  replace (sin (PI * IZR k)) with 0.
  - unfold Rdiv. ring.
  - symmetry. apply sin_eq_0_1. exists k. ring.
Qed.

Lemma lanczos_even (x : R) : lanczos (- x) 3 = lanczos x 3.
Proof.
  destruct (Req_dec_T x 0) as [->|H0]; [now rewrite Ropp_0|].
  destruct (Rlt_dec x (-3)) as [H1|H1].
  { rewrite !lanczos_outside; [reflexivity|now left|right; lra]. }
  destruct (Rlt_dec 3 x) as [H2|H2].
  { rewrite !lanczos_outside; [reflexivity|now right|left; lra]. }
  rewrite !lanczos_inside by lra.
  replace (PI * - x) with (- (PI * x)) by ring.
  replace (- (PI * x) / 3) with (- (PI * x / 3)) by (unfold Rdiv; ring).
  rewrite !sin_neg. field. split; [exact H0|apply PI_neq0].
Qed.

(** [sin u >= u / 2] on [[0, PI / 3]], by the mean value theorem. *)
Lemma sin_ge_half (u : R) : 0 <= u <= PI / 3 -> u / 2 <= sin u.
Proof.
  intros [H0 H1]. pose proof PI_gt_3 as Hpi.
  destruct (Req_dec_T u 0) as [->|Hne]; [rewrite sin_0; lra|].
  destruct (MVT_cor2 sin cos 0 u ltac:(lra)
              (fun c _ => derivable_pt_lim_sin c)) as (c & Hc & Hc0 & Hc1).
  rewrite sin_0 in Hc.
  assert (Hcos : 1 / 2 <= cos c).
  { rewrite <- cos_PI3. apply cos_decr_1; lra. }
  nra.
Qed.

(** *** Signs of the kernel on the unit steps of its support *)

Lemma lanczos_near (s : R) : 0 < s < 1 -> 0 < lanczos s 3.
Proof.
  intros [H0 H1]. pose proof PI_RGT_0 as Hpi.
  rewrite lanczos_inside by lra.
  assert (Hps : 0 < PI * s) by (apply Rmult_lt_0_compat; lra).
  assert (Hps1 : PI * s < PI) by nra.
  assert (HS : 0 < sin (PI * s)) by (apply sin_gt_0; lra).
  assert (Ha : 0 < sin (PI * s / 3)) by (apply sin_gt_0; lra).
  apply Rdiv_lt_0_compat; [|now apply Rmult_lt_0_compat].
  apply Rmult_lt_0_compat; [|exact Ha].
  apply Rmult_lt_0_compat; lra.
Qed.

Lemma lanczos_pair (s : R) : 0 < s < 1 -> 0 < lanczos s 3 + lanczos (s + 1) 3.
Proof.
  intros [H0 H1]. pose proof PI_RGT_0 as Hpi. pose proof PI_gt_3 as Hpi3.
  rewrite !lanczos_inside by lra.
  replace (PI * (s + 1)) with (PI * s + PI) by ring.
  rewrite neg_sin.
  assert (Hps : 0 < PI * s) by (apply Rmult_lt_0_compat; lra).
  assert (Hps1 : PI * s < PI) by nra.
  assert (Hps3 : 3 * s < PI * s) by nra.
  assert (HS : 0 < sin (PI * s)) by (apply sin_gt_0; lra).
  assert (Ha : PI * s / 3 / 2 <= sin (PI * s / 3))
    by (apply sin_ge_half; split; lra).
  pose proof (SIN_bound ((PI * s + PI) / 3)) as [_ Hb].
  set (sn := sin (PI * s)) in *.
  set (a := sin (PI * s / 3)) in *.
  set (b := sin ((PI * s + PI) / 3)) in *.
  clearbody sn a b.
  assert (Ha' : s / 2 <= a) by lra.
  assert (H3sn : 0 < 3 * sn) by lra.
  assert (Hss : 0 < s * s) by (apply Rmult_lt_0_compat; lra).
  assert (Hs1 : 0 < (s + 1) * (s + 1)) by (apply Rmult_lt_0_compat; lra).
  assert (Hpp : 0 < PI * PI) by (apply Rmult_lt_0_compat; lra).
  assert (Hden : 0 < PI * PI * (s * s) * ((s + 1) * (s + 1))).
  { apply Rmult_lt_0_compat; [apply Rmult_lt_0_compat|]; assumption. }
  assert (Hnum : 0 < a * ((s + 1) * (s + 1)) - b * (s * s)).
  { assert (H2 : s / 2 * ((s + 1) * (s + 1)) <= a * ((s + 1) * (s + 1)))
      by (apply Rmult_le_compat_r; nra).
    assert (H3 : b * (s * s) <= 1 * (s * s))
      by (apply Rmult_le_compat_r; nra).
    nra. }
  replace (3 * sn * a / (PI * s * (PI * s))
           + 3 * - sn * b / ((PI * s + PI) * (PI * s + PI)))
    with (3 * sn * (a * ((s + 1) * (s + 1)) - b * (s * s))
          / (PI * PI * (s * s) * ((s + 1) * (s + 1))))
    by (field; repeat split; lra).
  apply Rdiv_lt_0_compat; [|exact Hden].
  apply Rmult_lt_0_compat; [exact H3sn|exact Hnum].
Qed.

Lemma lanczos_far (s : R) : 0 < s < 1 -> 0 < lanczos (s + 2) 3.
Proof.
  intros [H0 H1]. pose proof PI_RGT_0 as Hpi.
  rewrite lanczos_inside by lra.
  replace (PI * (s + 2)) with (PI * s + 2 * INR 1 * PI) by (cbn; ring).
  rewrite sin_period.
  assert (Hps : 0 < PI * s) by (apply Rmult_lt_0_compat; lra).
  assert (Hps1 : PI * s < PI) by nra.
  assert (HS : 0 < sin (PI * s)) by (apply sin_gt_0; lra).
  assert (Ha : 0 < sin ((PI * s + 2 * INR 1 * PI) / 3)).
  { apply sin_gt_0; cbn; lra. }
  apply Rdiv_lt_0_compat.
  - apply Rmult_lt_0_compat; [|exact Ha].
    apply Rmult_lt_0_compat; lra.
  - cbn. apply Rmult_lt_0_compat; lra.
Qed.

(** The partial sums of the kernel over the taps at and before the sample
    position, and over the taps after it: [f] is the fractional part of the
    position. *)
Lemma taps_before (f : R) :
  0 <= f < 1 ->
  0 < lanczos f 3 /\
  0 < lanczos (f + 1) 3 + lanczos f 3 /\
  0 < lanczos (f + 2) 3 + (lanczos (f + 1) 3 + lanczos f 3) /\
  0 < lanczos (f + 3) 3
      + (lanczos (f + 2) 3 + (lanczos (f + 1) 3 + lanczos f 3)).
Proof.
  intros [H0 H1].
  destruct (Req_dec_T f 0) as [->|Hne].
  - rewrite !Rplus_0_l, lanczos_0.
    rewrite (lanczos_integer 1), (lanczos_integer 2), (lanczos_integer 3)
      by discriminate.
    lra.
  - pose proof (lanczos_near f ltac:(lra)).
    pose proof (lanczos_pair f ltac:(lra)).
    pose proof (lanczos_far f ltac:(lra)).
    rewrite (lanczos_outside (f + 3)) by (right; lra). lra.
Qed.

Lemma taps_after (f : R) :
  0 <= f < 1 ->
  0 <= lanczos (f - 1) 3 /\
  0 <= lanczos (f - 1) 3 + lanczos (f - 2) 3 /\
  0 <= lanczos (f - 1) 3 + (lanczos (f - 2) 3 + lanczos (f - 3) 3) /\
  0 <= lanczos (f - 1) 3
       + (lanczos (f - 2) 3 + (lanczos (f - 3) 3 + lanczos (f - 4) 3)).
Proof.
  intros [H0 H1].
  rewrite (lanczos_outside (f - 4)) by (left; lra).
  replace (f - 1) with (- (1 - f)) by ring.
  replace (f - 2) with (- (1 - f + 1)) by ring.
  replace (f - 3) with (- (1 - f + 2)) by ring.
  rewrite !lanczos_even.
  destruct (Req_dec_T f 0) as [->|Hne].
  - rewrite !Rminus_0_r.
    replace (1 + 1) with 2 by ring. replace (1 + 2) with 3 by ring.
    rewrite (lanczos_integer 1), (lanczos_integer 2), (lanczos_integer 3)
      by discriminate.
    lra.
  - pose proof (lanczos_near (1 - f) ltac:(lra)).
    pose proof (lanczos_pair (1 - f) ltac:(lra)).
    pose proof (lanczos_far (1 - f) ltac:(lra)).
    lra.
Qed.

(** *** Sums over the taps *)

Lemma Rsum_app g l1 l2 : Rsum g (l1 ++ l2) = Rsum g l1 + Rsum g l2.
Proof. induction l1 as [|i l1 IH]; cbn; [ring|rewrite IH; ring]. Qed.

Lemma Rsum_map g (h : Z -> Z) l : Rsum g (map h l) = Rsum (fun i => g (h i)) l.
Proof. induction l as [|i l IH]; cbn; [reflexivity|now rewrite IH]. Qed.

Lemma Rsum_ext g1 g2 l :
  (forall i, In i l -> g1 i = g2 i) -> Rsum g1 l = Rsum g2 l.
Proof.
  induction l as [|i l IH]; intros H; cbn; [reflexivity|].
  rewrite (H i) by now left. rewrite IH; [reflexivity|].
  intros j Hj. apply H. now right.
Qed.

Lemma Rsum_scale g c l : Rsum (fun i => g i * c) l = Rsum g l * c.
Proof. induction l as [|i l IH]; cbn; [ring|rewrite IH; ring]. Qed.



Local Open Scope Z_scope.


Lemma zrange_shift (F a b : Z) :
  zrange (F + a) (F + b) = map (fun j => F + j) (zrange a b).
Proof.
  unfold zrange. rewrite map_map.
  replace (F + b - (F + a)) with (b - a) by lia.
  apply map_ext. intros i. lia.
Qed.

Local Open Scope R_scope.

(** The taps at and before the sample position weigh more than nothing;
    those after it do not weigh less. *)
Lemma sum_taps_before (f : R) (a : Z) :
  0 <= f < 1 -> (-3 <= a <= 0)%Z ->
  0 < Rsum (fun j => lanczos (f - IZR j) 3) (zrange a 1).
Proof.
  intros Hf Ha. destruct (taps_before f Hf) as (H0 & H1 & H2 & H3).
  assert (E : (a = -3 \/ a = -2 \/ a = -1 \/ a = 0)%Z) by lia.
  destruct E as [-> | [-> | [-> | ->]]].
  - change (zrange (-3) 1) with [-3; -2; -1; 0]%Z. cbn [Rsum].
    replace (f - -3) with (f + 3) by ring.
    replace (f - -2) with (f + 2) by ring.
    replace (f - -1) with (f + 1) by ring.
    replace (f - 0) with f by ring. lra.
  - change (zrange (-2) 1) with [-2; -1; 0]%Z. cbn [Rsum].
    replace (f - -2) with (f + 2) by ring.
    replace (f - -1) with (f + 1) by ring.
    replace (f - 0) with f by ring. lra.
  - change (zrange (-1) 1) with [-1; 0]%Z. cbn [Rsum].
    replace (f - -1) with (f + 1) by ring.
    replace (f - 0) with f by ring. lra.
  - change (zrange 0 1) with [0]%Z. cbn [Rsum].
    replace (f - 0) with f by ring. lra.
Qed.

Lemma sum_taps_after (f : R) (b : Z) :
  0 <= f < 1 -> (1 <= b <= 5)%Z ->
  0 <= Rsum (fun j => lanczos (f - IZR j) 3) (zrange 1 b).
Proof.
  intros Hf Hb. destruct (taps_after f Hf) as (H1 & H2 & H3 & H4).
  assert (E : (b = 1 \/ b = 2 \/ b = 3 \/ b = 4 \/ b = 5)%Z) by lia.
  destruct E as [-> | [-> | [-> | [-> | ->]]]].
  - change (zrange 1 1) with (@nil Z). cbn [Rsum]. lra.
  - change (zrange 1 2) with [1]%Z. cbn [Rsum]. lra.
  - change (zrange 1 3) with [1; 2]%Z. cbn [Rsum]. lra.
  - change (zrange 1 4) with [1; 2; 3]%Z. cbn [Rsum]. lra.
  - change (zrange 1 5) with [1; 2; 3; 4]%Z. cbn [Rsum]. lra.
Qed.

(** The weights of the window of one axis add up to a positive number:
    [t] is the sample position on a source axis of [n] pixels. *)
Lemma window_sum_pos (n : Z) (t : R) :
  (1 <= n)%Z -> 0 <= t < IZR n ->
  0 < Rsum (fun s => lanczos (t - IZR s) 3)
           (zrange (Z.max 0 (Math_floorR t - filterSize))
                   (Z.min (n - 1) (Math_ceilR t + filterSize) + 1)).
Proof.
  intros Hn [Ht0 Ht1]. unfold Math_floorR, Math_ceilR, filterSize.
  destruct (base_Int_part t) as [HF1 HF2].
  destruct (base_Int_part (- t)) as [HC1 HC2].
  set (F := Int_part t) in *. set (C := (- Int_part (- t))%Z) in *.
  assert (HC : IZR C = - IZR (Int_part (- t))) by (unfold C; apply opp_IZR).
  assert (HF0 : (0 <= F)%Z).
  { apply le_IZR. apply Rnot_lt_le. intros H.
    assert (H' : (F <= -1)%Z) by (apply lt_IZR in H; lia).
    apply IZR_le in H'. lra. }
  assert (HFn : (F <= n - 1)%Z).
  { assert (H : (F < n)%Z) by (apply lt_IZR; lra). lia. }
  assert (HFC : (F <= C <= F + 1)%Z).
  { split.
    - apply le_IZR. lra.
    - assert (H : (C < F + 2)%Z) by (apply lt_IZR; rewrite plus_IZR; lra).
      lia. }
  set (f := t - IZR F).
  assert (Hf : 0 <= f < 1) by (unfold f; lra).
  set (lo := Z.max 0 (F - 3)). set (hi := Z.min (n - 1) (C + 3)).
  replace lo with (F + (lo - F))%Z by lia.
  replace (hi + 1)%Z with (F + (hi + 1 - F))%Z by lia.
  rewrite zrange_shift, Rsum_map.
  rewrite <- (zrange_app (lo - F) 1 (hi + 1 - F)) by lia.
  rewrite Rsum_app.
  rewrite (Rsum_ext _ (fun j => lanczos (f - IZR j) 3)).
  2:{ intros j _. f_equal. unfold f. rewrite plus_IZR. ring. }
  rewrite (Rsum_ext (fun i => lanczos (t - IZR (F + i)) 3)
                    (fun j => lanczos (f - IZR j) 3)).
  2:{ intros j _. f_equal. unfold f. rewrite plus_IZR. ring. }
  pose proof (sum_taps_before f (lo - F) Hf ltac:(lia)).
  pose proof (sum_taps_after f (hi + 1 - F) Hf ltac:(lia)).
  lra.
Qed.

(** *** The accumulators as sums *)

Section Taps.

Variables (srcData : list Z) (srcWidth : Z) (srcX srcY : R).

Let weight (sy sx : Z) : R :=
  lanczos (srcX - IZR sx) 3 * lanczos (srcY - IZR sy) 3.
Let idx (sy sx : Z) : Z := ((sy * srcWidth + sx) * 4)%Z.

Lemma fold_tap (sy : Z) (xs : list Z) (ac : accum) :
  fold_left (tap srcData srcWidth srcX srcY sy) xs ac
  = mkAccum
      (acc_r ac + Rsum (fun sx => load srcData (idx sy sx) * weight sy sx) xs)
      (acc_g ac
       + Rsum (fun sx => load srcData (idx sy sx + 1) * weight sy sx) xs)
      (acc_b ac
       + Rsum (fun sx => load srcData (idx sy sx + 2) * weight sy sx) xs)
      (acc_a ac
       + Rsum (fun sx => load srcData (idx sy sx + 3) * weight sy sx) xs)
      (weightSum ac + Rsum (weight sy) xs).
Proof.
  revert ac. induction xs as [|sx xs IH]; intros ac; cbn [fold_left Rsum].
  - destruct ac. cbn. f_equal; ring.
  - rewrite IH. unfold tap. cbn [acc_r acc_g acc_b acc_a weightSum].
    fold (idx sy sx). fold (weight sy sx). f_equal; ring.
Qed.

Lemma fold_rows (xs ys : list Z) (ac : accum) :
  fold_left (fun ac sy => fold_left (tap srcData srcWidth srcX srcY sy) xs ac)
            ys ac
  = mkAccum
      (acc_r ac
       + Rsum (fun sy =>
                 Rsum (fun sx => load srcData (idx sy sx) * weight sy sx) xs)
              ys)
      (acc_g ac
       + Rsum (fun sy =>
                 Rsum (fun sx => load srcData (idx sy sx + 1) * weight sy sx)
                      xs) ys)
      (acc_b ac
       + Rsum (fun sy =>
                 Rsum (fun sx => load srcData (idx sy sx + 2) * weight sy sx)
                      xs) ys)
      (acc_a ac
       + Rsum (fun sy =>
                 Rsum (fun sx => load srcData (idx sy sx + 3) * weight sy sx)
                      xs) ys)
      (weightSum ac + Rsum (fun sy => Rsum (weight sy) xs) ys).
Proof.
  revert ac. induction ys as [|sy ys IH]; intros ac; cbn [fold_left Rsum].
  - destruct ac. cbn. f_equal; ring.
  - rewrite IH, fold_tap. cbn [acc_r acc_g acc_b acc_a weightSum].
    f_equal; ring.
Qed.

(** The weight sum is the product of the sums of the two axes. *)
Lemma weight_sum_product (xs ys : list Z) :
  Rsum (fun sy => Rsum (weight sy) xs) ys
  = Rsum (fun sx => lanczos (srcX - IZR sx) 3) xs
    * Rsum (fun sy => lanczos (srcY - IZR sy) 3) ys.
Proof.
  transitivity
    (Rsum (fun sy => lanczos (srcY - IZR sy) 3
                     * Rsum (fun sx => lanczos (srcX - IZR sx) 3) xs) ys).
  - apply Rsum_ext. intros sy _. unfold weight.
    rewrite (Rsum_scale (fun sx => lanczos (srcX - IZR sx) 3)). ring.
  - rewrite (Rsum_scale (fun sy => lanczos (srcY - IZR sy) 3)). ring.
Qed.

End Taps.

Lemma sample_position (n t x : Z) :
  (1 <= n)%Z -> (0 <= x < t)%Z -> 0 <= IZR x * (IZR n / IZR t) < IZR n.
Proof.
  intros Hn [Hx0 Hx1].
  assert (Ht : 0 < IZR t) by (apply IZR_lt; lia).
  assert (Hn' : 0 < IZR n) by (apply IZR_lt; lia).
  assert (Hx : 0 <= IZR x) by (apply IZR_le; lia).
  assert (Hxt : IZR x < IZR t) by (apply IZR_lt; lia).
  assert (Hq : 0 < IZR n / IZR t) by (now apply Rdiv_lt_0_compat).
  split; [nra|].
  replace (IZR x * (IZR n / IZR t)) with (IZR x / IZR t * IZR n)
    by (field; lra).
  assert (H1 : IZR x / IZR t < 1).
  { apply Rmult_lt_reg_r with (IZR t); [exact Ht|].
    replace (IZR x / IZR t * IZR t) with (IZR x) by (field; lra). lra. }
  nra.
Qed.

(** C3.  In every Lanczos pass over a non-empty source, for every
    destination pixel the total weight over the clamped sampling window is
    positive; so the divisor of the four channel divisions is never zero,
    each division yields a finite quotient, and each channel is that
    quotient rounded and clamped (the case of a zero weight sum, in which
    a nearest-sample copy would be due, does not arise). *)
Theorem weight_sum_never_zero srcData srcWidth srcHeight
    targetWidth targetHeight x y :
  (1 <= srcWidth)%Z -> (1 <= srcHeight)%Z ->
  (0 <= x < targetWidth)%Z -> (0 <= y < targetHeight)%Z ->
  let ac := convolve srcData srcWidth srcHeight
                     (IZR srcWidth / IZR targetWidth)
                     (IZR srcHeight / IZR targetHeight) x y in
  0 < weightSum ac /\
  (forall c, jsdiv c (weightSum ac) = Fin (c / weightSum ac)) /\
  (forall c, channel c (weightSum ac)
             = FinZ (Z.min (Z.max (Int_part (c / weightSum ac + / 2)) 0)
                           255)).
Proof.
  intros Hw Hh Hx Hy ac.
  assert (Hpos : 0 < weightSum ac).
  { unfold ac, convolve. rewrite fold_rows. cbn [weightSum].
    rewrite Rplus_0_l, weight_sum_product.
    apply Rmult_lt_0_compat; apply window_sum_pos;
      try assumption; now apply sample_position. }
  assert (Hdiv : forall c, jsdiv c (weightSum ac) = Fin (c / weightSum ac)).
  { intros c. unfold jsdiv.
    destruct (Req_dec_T (weightSum ac) 0) as [E|_]; [lra|reflexivity]. }
  split; [exact Hpos|]. split; [exact Hdiv|].
  intros c. unfold channel. rewrite Hdiv. reflexivity.
Qed.

Lemma weight_sum_never_zero_witness :
  ((1 <= 2)%Z /\ (1 <= 2)%Z /\ (0 <= 3 < 5)%Z /\ (0 <= 4 < 5)%Z) /\
  let ac := convolve [10; 20; 30; 255; 40; 50; 60; 255;
                      70; 80; 90; 255; 15; 25; 35; 255]%Z 2 2
                     (IZR 2 / IZR 5) (IZR 2 / IZR 5) 3 4 in
  0 < weightSum ac /\
  (forall c, jsdiv c (weightSum ac) = Fin (c / weightSum ac)) /\
  (forall c, channel c (weightSum ac)
             = FinZ (Z.min (Z.max (Int_part (c / weightSum ac + / 2)) 0)
                           255)).
Proof.
  split; [lia|].
  apply (weight_sum_never_zero
           [10; 20; 30; 255; 40; 50; 60; 255;
            70; 80; 90; 255; 15; 25; 35; 255]%Z 2 2 5 5 3 4); lia.
Defined.

(** *** Resampling to the size of the source *)







(** *** What the loops store *)

Local Open Scope Z_scope.



Section Stores.

Variables (srcData : list Z) (srcWidth srcHeight : Z) (scaleX scaleY : R).
Variable targetWidth : Z.
Hypothesis targetWidth_pos : 0 < targetWidth.

Let put := putPixel srcData srcWidth srcHeight scaleX scaleY targetWidth.
Let B := destByte srcData srcWidth srcHeight scaleX scaleY targetWidth.





End Stores.


End KernelFacts.

(** ** Resampling to the size of the source *)

Module IdentityFacts.

Import JS Eff Eff.Notations Canvas ImageProcessor Basics PassFacts.
Import ScaleFacts RunFacts KernelFacts.
Local Open Scope Z_scope.





Section Filter.

Variable filter : canvas -> Z -> Z -> Z -> Z.
Variable src : canvas.

Hypothesis width_pos : 1 <= width src.
Hypothesis height_pos : 1 <= height src.
Hypothesis src_wf : wf src.

(** The browser renders [src] at its own size pixel for pixel. *)
Hypothesis filter_same_size :
  forall i, 0 <= i < 4 * width src * height src ->
    filter src (width src) (height src) i = nth (Z.to_nat i) (data src) 0.




End Filter.



End IdentityFacts.
